(** * flocker.control._diffing: differences between nested persistent objects

    A shallow embedding of [src/flocker/control/_diffing.py] and of the part
    of pyrsistent it drives (maps, sets, records, their evolvers and
    [transform]).  Python exceptions are values of [exn] in the [result]
    monad; the mutable [_TransformProxy] is threaded explicitly. *)

From stdpp Require Import gmap strings list fin_maps.

#[local] Set Warnings "-register-all,-clear-no-such-hyp".

(** * The model *)

(** ** Python exceptions and results *)

Inductive exn :=
| AttributeError
| KeyError
| TypeError
| IndexError
| AssertionError
| InvariantException.

Inductive result (A : Type) :=
| Ok (a : A)
| Raise (e : exn).
Arguments Ok {A} a.
Arguments Raise {A} e.

Global Instance result_ret : MRet result := λ A a, Ok a.

Global Instance result_bind : MBind result := λ A B k r,
  match r with
  | Ok a => k a
  | Raise e => Raise e
  end.

(** [reduce] with a step that may raise. *)
Fixpoint reduce {A B} (f : A → B → result A) (l : list B) (init : A) : result A :=
  match l with
  | [] => Ok init
  | x :: l' => a ← f init x; reduce f l' a
  end.

(** ** Tree values

    Scalars are [atom]s; set elements are hashable scalars.  Mapping keys,
    record field names and path segments are strings, and none of them names
    a method or attribute of the Python objects (so [getattr] only ever finds
    record fields).  [gmap] and [gset] give Python's order-insensitive [==]
    as Leibniz equality. *)

Inductive atom :=
| ANone
| AInt (z : Z)
| AStr (s : string).

Global Instance atom_eq_dec : EqDecision atom.
Proof. solve_decision. Defined.

Global Instance atom_countable : Countable atom.
Proof.
  refine (inj_countable'
    (λ a, match a with
          | ANone => inl ()
          | AInt z => inr (inl z)
          | AStr s => inr (inr s)
          end)
    (λ x, match x with
          | inl _ => ANone
          | inr (inl z) => AInt z
          | inr (inr s) => AStr s
          end) _).
  by intros [].
Defined.

Inductive value :=
| VAtom (a : atom)
| VMap (m : gmap string value)                   (* PMap *)
| VSet (s : gset atom)                           (* PSet *)
| VRec (cls : string) (flds : gmap string value) (* PClass instance *).

Global Instance value_inhabited : Inhabited value := populate (VAtom ANone).

(** [type(x)] *)
Inductive pytype :=
| TNone
| TInt
| TStr
| TPMap
| TPSet
| TClass (cls : string).

Global Instance pytype_eq_dec : EqDecision pytype.
Proof. solve_decision. Defined.

Definition type_of (v : value) : pytype :=
  match v with
  | VAtom ANone => TNone
  | VAtom (AInt _) => TInt
  | VAtom (AStr _) => TStr
  | VMap _ => TPMap
  | VSet _ => TPSet
  | VRec cls _ => TClass cls
  end.

(** Structural equality [a == b], computed by recursion on [a]. *)
Fixpoint value_eqb (a b : value) {struct a} : bool :=
  match a, b with
  | VAtom x, VAtom y => bool_decide (x = y)
  | VSet s, VSet t => bool_decide (s = t)
  | VMap m, VMap n =>
      bool_decide (dom m = dom n) &&
      map_fold (λ k x acc,
        match n !! k with
        | Some y => value_eqb x y && acc
        | None => false
        end) true m
  | VRec c m, VRec d n =>
      bool_decide (c = d) && bool_decide (dom m = dom n) &&
      map_fold (λ k x acc,
        match n !! k with
        | Some y => value_eqb x y && acc
        | None => false
        end) true m
  | _, _ => false
  end.

(** ** ChangeOps and Diff *)

Inductive change :=
| _Remove (path : list string) (item : atom)
| _Set (path : list string) (value : value)
| _Add (path : list string) (item : atom).

Definition path (c : change) : list string :=
  match c with
  | _Remove p _ | _Set p _ | _Add p _ => p
  end.

Record Diff := mkDiff { changes : list change }.

(** ** The Differencer *)

Definition _create_diffs_for_sets (current_path : list string)
    (set_a set_b : gset atom) : list change :=
  let resulting_diffs := [] in
  let resulting_diffs :=
    foldl (λ acc item, acc ++ [_Remove current_path item])
          resulting_diffs (elements (set_a ∖ set_b)) in
  let resulting_diffs :=
    foldl (λ acc item, acc ++ [_Add current_path item])
          resulting_diffs (elements (set_b ∖ set_a)) in
  resulting_diffs.

(** [_create_diffs_for_mappings] calls back into [_create_diffs_for]; the
    callee is the parameter [recurse].  A frozenset is iterated in an
    unspecified but fixed order: the common keys are visited in the order
    [map_fold] enumerates [mapping_a], the others in the order of
    [elements]. *)
Definition _create_diffs_for_mappings
    (recurse : list string → value → value → list change)
    (current_path : list string) (mapping_a mapping_b : gmap string value)
    : list change :=
  let a_keys := dom mapping_a in
  let b_keys := dom mapping_b in
  let common :=
    map_fold (λ key va rest,
      match mapping_b !! key with
      | Some vb =>
          if negb (value_eqb va vb)
          then recurse (current_path ++ [key]) va vb ++ rest
          else rest
      | None => rest
      end) [] mapping_a in
  let resulting_diffs := common in
  let resulting_diffs :=
    foldl (λ acc key,
             acc ++ [_Set (current_path ++ [key]) (mapping_b !!! key)])
          resulting_diffs (elements (b_keys ∖ a_keys)) in
  let resulting_diffs :=
    foldl (λ acc key, acc ++ [_Remove current_path (AStr key)])
          resulting_diffs (elements (a_keys ∖ b_keys)) in
  resulting_diffs.

Fixpoint _create_diffs_for (current_path : list string)
    (subobj_a subobj_b : value) {struct subobj_a} : list change :=
  if value_eqb subobj_a subobj_b then []
  else if negb (bool_decide (type_of subobj_a = type_of subobj_b))
  then [_Set current_path subobj_b]
  else
    match subobj_a, subobj_b with
    | VRec _ a_dict, VRec _ b_dict =>
        _create_diffs_for_mappings _create_diffs_for current_path a_dict b_dict
    | VMap mapping_a, VMap mapping_b =>
        _create_diffs_for_mappings _create_diffs_for
          current_path mapping_a mapping_b
    | VSet set_a, VSet set_b =>
        _create_diffs_for_sets current_path set_a set_b
    | _, _ => [_Set current_path subobj_b]
    end.

Definition create_diff (object_a object_b : value) : Diff :=
  let changes := _create_diffs_for [] object_a object_b in
  mkDiff changes.

Definition compose_diffs (iterable_of_diffs : list Diff) : Diff :=
  mkDiff (foldl (λ x y, x ++ changes y) [] iterable_of_diffs).

(** ** pyrsistent evolvers

    An evolver is the mutable builder of one container.  [persistent]
    converts it back; for a record that runs the class constructor, which
    checks the declared fields and the class invariant. *)

Inductive evolver :=
| EMap (m : gmap string value)
| ESet (s : gset atom)
| ERec (cls : string) (flds : gmap string value).

(** [target.evolver()] *)
Definition evolver_of (target : value) : result evolver :=
  match target with
  | VAtom _ => Raise AttributeError
  | VMap m => Ok (EMap m)
  | VSet s => Ok (ESet s)
  | VRec cls flds => Ok (ERec cls flds)
  end.

(** [o.set(key, value)] *)
Definition evolver_set (o : evolver) (key : string) (v : value) : result evolver :=
  match o with
  | EMap m => Ok (EMap (<[key:=v]> m))
  | ESet _ => Raise AttributeError
  | ERec cls flds => Ok (ERec cls (<[key:=v]> flds))
  end.

(** [o.remove(item)] *)
Definition evolver_remove (o : evolver) (item : atom) : result evolver :=
  match o with
  | EMap m =>
      match item with
      | AStr key => if decide (key ∈ dom m) then Ok (EMap (delete key m))
                    else Raise KeyError
      | _ => Raise KeyError
      end
  | ESet s => if decide (item ∈ s) then Ok (ESet (s ∖ {[item]}))
              else Raise KeyError
  | ERec cls flds =>
      match item with
      | AStr key => if decide (key ∈ dom flds) then Ok (ERec cls (delete key flds))
                    else Raise AttributeError
      | _ => Raise AttributeError
      end
  end.

(** [x.add(item)].  A record evolver looks an unknown attribute up among its
    fields ([__getattr__] is [self[item]]): without a field of that name the
    lookup raises [KeyError], with one the field's value is called, and no
    tree value is callable. *)
Definition evolver_add (x : evolver) (item : atom) : result evolver :=
  match x with
  | ESet s => Ok (ESet ({[item]} ∪ s))
  | EMap _ => Raise AttributeError
  | ERec _ flds =>
      match flds !! "add"%string with
      | Some _ => Raise TypeError
      | None => Raise KeyError
      end
  end.

(** [e[k] = result] *)
Definition evolver_setitem (e : evolver) (k : string) (v : value) : result evolver :=
  match e with
  | EMap m => Ok (EMap (<[k:=v]> m))
  | ESet _ => Raise TypeError
  | ERec cls flds => Ok (ERec cls (<[k:=v]> flds))
  end.

(** The closures the three ChangeOps hand to the proxy.  [_Set]'s closure
    reads [self.path[-1]] when it is called. *)
Inductive operation :=
| OpRemove (item : atom)
| OpSet (path : list string) (value : value)
| OpAdd (item : atom).

Definition run_operation (e : evolver) (op : operation) : result evolver :=
  match op with
  | OpRemove item => evolver_remove e item
  | OpSet p v =>
      match last p with
      | Some key => evolver_set e key v
      | None => Raise IndexError
      end
  | OpAdd item => evolver_add e item
  end.

(** [pyrsistent._transformations._get] *)
Definition _get (structure : value) (key : string) (default : value) : result value :=
  match structure with
  | VMap m =>
      match m !! key with
      | Some v => Ok v
      | None => Ok default
      end
  | VRec _ flds =>
      match flds !! key with
      | Some v => Ok v
      | None => Raise AttributeError
      end
  | VSet _ => Raise AttributeError
  | VAtom (AStr _) => Raise TypeError
  | VAtom _ => Raise AttributeError
  end.

(** ** The transform proxy and [Diff.apply] *)

Record _TransformProxy := mkProxy {
  _original_object : value;
  _operations : list operation;
  _current_path : option (list string);
  _current_object : value }.

(** [_TransformProxy(original=...)] *)
Definition _TransformProxy_init (original : value) : _TransformProxy :=
  {| _original_object := original;
     _operations := [];
     _current_path := None;
     _current_object := original |}.

(** The record classes of the application: [class_invariant cls flds] tells
    whether the constructor of class [cls] accepts the fields [flds]. *)
Class ClassTable := class_invariant : string → gmap string value → bool.

Section applier.

Context `{ClassTable}.

(** [evolver.persistent()].  pyrsistent skips the constructor when the record
    evolver is not dirty; on a record that satisfies its invariant the check
    changes nothing, so it is run on every conversion.  The constructor only
    accepts or rejects: field factories and initial values, which leave the
    fields of an existing record as they are, are not modelled. *)
Definition persistent (e : evolver) : result value :=
  match e with
  | EMap m => Ok (VMap m)
  | ESet s => Ok (VSet s)
  | ERec cls flds =>
      if class_invariant cls flds then Ok (VRec cls flds)
      else Raise InvariantException
  end.

(** [_do_to_path] with a replacement value as command, one key per segment;
    [_update_structure] is inlined. *)
Fixpoint _do_to_path (structure : value) (p : list string) (command : value)
    : result value :=
  match p with
  | [] => Ok command
  | key :: rest =>
      v ← _get structure key (VMap ∅);
      e ← evolver_of structure;
      r ← _do_to_path v rest command;
      e ← evolver_setitem e key r;
      persistent e
  end.

(** [obj.transform(path, target)]: maps and records have the method. *)
Definition value_transform (obj : value) (p : list string) (target : value)
    : result value :=
  match obj with
  | VMap _ | VRec _ _ => _do_to_path obj p target
  | VAtom _ | VSet _ => Raise AttributeError
  end.

(** [_TransformProxy.commit]; the returned proxy is [self] after the call and
    its [_current_object] is the value the method returns. *)
Definition commit (self : _TransformProxy) : result _TransformProxy :=
  match _operations self with
  | [] => Ok self
  | _ :: _ =>
      match _current_path self with
      | None => Raise TypeError
      | Some current_path =>
          target ← reduce (λ o segment, _get o segment (VAtom ANone))
                          current_path (_current_object self);
          evolver ← evolver_of target;
          evolver ← reduce run_operation (_operations self) evolver;
          target ← persistent evolver;
          obj ← value_transform (_current_object self) current_path target;
          Ok {| _original_object := _original_object self;
                _operations := [];
                _current_path := _current_path self;
                _current_object := obj |}
      end
  end.

(** [_TransformProxy.transform] *)
Definition transform (self : _TransformProxy) (p : list string)
    (op : operation) : result _TransformProxy :=
  self ← match _current_path self with
         | Some current_path =>
             if decide (p ≠ current_path) then commit self else Ok self
         | None => Ok self
         end;
  Ok {| _original_object := _original_object self;
        _operations := _operations self ++ [op];
        _current_path := Some p;
        _current_object := _current_object self |}.

(** [c.apply(proxy)] for the three ChangeOps. *)
Definition change_apply (c : change) (obj : _TransformProxy)
    : result _TransformProxy :=
  match c with
  | _Remove p item => transform obj p (OpRemove item)
  | _Set p v => transform obj (removelast p) (OpSet p v)
  | _Add p item => transform obj p (OpAdd item)
  end.

(** One iteration of the loop of [Diff.apply]. *)
Definition apply_step (proxy : _TransformProxy) (c : change)
    : result _TransformProxy :=
  if decide (0 < length (path c)) then change_apply c proxy
  else
    match c with
    | _Set _ v => Ok (_TransformProxy_init v)
    | _ => Raise AssertionError
    end.

Definition Diff_apply (self : Diff) (obj : value) : result value :=
  let proxy := _TransformProxy_init obj in
  proxy ← reduce apply_step (changes self) proxy;
  proxy ← commit proxy;
  Ok (_current_object proxy).

End applier.

(** * Notions used in the statements *)

(** ** Values and paths *)

Fixpoint value_size (v : value) : nat :=
  match v with
  | VAtom _ | VSet _ => 1
  | VMap m | VRec _ m => S (map_fold (λ _ x acc, value_size x + acc) 0 m)
  end.

Definition is_dict (v : value) : bool :=
  match v with
  | VMap _ | VRec _ _ => true
  | VAtom _ | VSet _ => false
  end.

Definition evolver_is_dict (e : evolver) : bool :=
  match e with
  | EMap _ | ERec _ _ => true
  | ESet _ => false
  end.

(** Strict lookup of a path: every segment is a key or field that is there. *)
Fixpoint lookup_path (tree : value) (p : list string) : option value :=
  match p with
  | [] => Some tree
  | key :: rest =>
      match tree with
      | VMap m | VRec _ m => m !! key ≫= λ v, lookup_path v rest
      | VAtom _ | VSet _ => None
      end
  end.



(** ** Ops *)

(** The path a ChangeOp hands to [proxy.transform], that is the container it
    mutates, and the closure it hands over. *)
Definition container_path (c : change) : list string :=
  match c with
  | _Set p _ => removelast p
  | _Remove p _ | _Add p _ => p
  end.

Definition change_operation (c : change) : operation :=
  match c with
  | _Remove _ item => OpRemove item
  | _Set p v => OpSet p v
  | _Add _ item => OpAdd item
  end.

(** [item] is a key of the mapping, a field of the record or an element of
    the set [d]. *)
Definition holds (d : value) (item : atom) : Prop :=
  match d, item with
  | (VMap m | VRec _ m), AStr key => key ∈ dom m
  | VSet s, _ => item ∈ s
  | _, _ => False
  end.

(** The place an op writes to: the entry a [_Set] sets, the entry a [_Remove]
    deletes from a mapping, the set itself otherwise. *)
Definition touched (c : change) : list string :=
  match c with
  | _Set p _ => p
  | _Remove p (AStr key) => p ++ [key]
  | _Remove p _ | _Add p _ => p
  end.

Definition op_touched (p : list string) (op : operation) : list string :=
  match op with
  | OpSet p' _ => p ++ option_list (last p')
  | OpRemove (AStr key) => p ++ [key]
  | OpRemove _ | OpAdd _ => p
  end.

(** The entry of a builder under [key]; a set builder has none. *)
Definition evolver_entry (e : evolver) (key : string) : option value :=
  match e with
  | EMap m | ERec _ m => m !! key
  | ESet _ => None
  end.

(** Neither path leads through the other. *)
Definition apart (p q : list string) : Prop :=
  ¬ p `prefix_of` q ∧ ¬ q `prefix_of` p.

(** ** The Differencer on mappings *)

(** The ops the spec lists for one key of two mappings. *)
Definition mapping_ops_for_key (current_path : list string)
    (M1 M2 : gmap string value) (key : string) : list change :=
  match M1 !! key, M2 !! key with
  | Some va, Some vb =>
      if value_eqb va vb then []
      else _create_diffs_for (current_path ++ [key]) va vb
  | None, Some vb => [_Set (current_path ++ [key]) vb]
  | Some _, None => [_Remove current_path (AStr key)]
  | None, None => []
  end.

(** An op concerns [key] of the mapping at [current_path] when it acts at or
    below [current_path + key], or removes [key] from the mapping. *)
Definition addresses (current_path : list string) (key : string) (c : change)
    : Prop :=
  (current_path ++ [key]) `prefix_of` path c ∨ c = _Remove current_path (AStr key).

(** What the loop over the common keys emits for one entry of [mapping_a]. *)
Definition common_ops (recurse : list string → value → value → list change)
    (current_path : list string) (mapping_b : gmap string value)
    (entry : string * value) : list change :=
  match mapping_b !! entry.1 with
  | Some vb =>
      if negb (value_eqb entry.2 vb)
      then recurse (current_path ++ [entry.1]) entry.2 vb
      else []
  | None => []
  end.


(** The trees whose diff has no [_Remove] or [_Add] at the root. *)
Definition root_ok (a b : value) : Prop :=
  match a, b with
  | VSet set_a, VSet set_b => set_a = set_b
  | VMap mapping_a, VMap mapping_b => dom mapping_a ⊆ dom mapping_b
  | VRec cls_a a_dict, VRec cls_b b_dict =>
      cls_a = cls_b → dom a_dict ⊆ dom b_dict
  | _, _ => True
  end.

(** ** Batches

    The spec's description of [Diff.apply]: the ops are cut into maximal runs
    of adjacent ops on the same container, and each run is applied through
    one builder that is finalized once and spliced back. *)

Fixpoint batches_from (p : list string) (ops : list operation)
    (cs : list change) : list (list string * list operation) :=
  match cs with
  | [] => [(p, ops)]
  | c :: cs' =>
      if decide (container_path c = p)
      then batches_from p (ops ++ [change_operation c]) cs'
      else (p, ops) :: batches_from (container_path c) [change_operation c] cs'
  end.

Definition batches (cs : list change) : list (list string * list operation) :=
  match cs with
  | [] => []
  | c :: cs' => batches_from (container_path c) [change_operation c] cs'
  end.





Section notions.

Context `{ClassTable}.

Definition commit_batch (tree : value) (batch : list string * list operation)
    : result value :=
  target ← reduce (λ o segment, _get o segment (VAtom ANone)) batch.1 tree;
  builder ← evolver_of target;
  builder ← reduce run_operation batch.2 builder;
  target ← persistent builder;
  value_transform tree batch.1 target.

(** One op applied on its own: a batch of one. *)
Definition apply_op (tree : value) (c : change) : result value :=
  commit_batch tree (container_path c, [change_operation c]).

(** Applying diffs one after the other, as [compose_diffs]'s docstring puts
    it: "applying each of the input diffs in serial". *)
Definition apply_in_series (ds : list Diff) (tree : value)
    : result value :=
  reduce (λ t d, Diff_apply d t) ds tree.

(** The proxy of the composed run against the proxy of the sequential run:
    equal up to the unused original, both idle, or the composed one still
    holding a run the sequential one has committed. *)
Inductive sim : _TransformProxy → _TransformProxy → Prop :=
| sim_same s s' :
    _operations s = _operations s' →
    _current_path s = _current_path s' →
    _current_object s = _current_object s' →
    sim s s'
| sim_idle s s' :
    _operations s = [] →
    _operations s' = [] →
    _current_object s = _current_object s' →
    sim s s'
| sim_split s s' q ops :
    _current_path s = Some q →
    ops ≠ [] →
    _operations s = ops ++ _operations s' →
    commit_batch (_current_object s) (q, ops) = Ok (_current_object s') →
    (_current_path s' = Some q ∨ (_current_path s' = None ∧ _operations s' = [])) →
    sim s s'.



End notions.

(** ** Class tables of the examples *)

Section class_tables.

Local Open Scope string_scope.

(** Records without any invariant. *)
Definition no_invariants : ClassTable := λ _ _, true.


(** A class whose validator requires field [x] to equal entry [k] of the
    mapping in field [y]. *)
Definition x_mirrors_y : ClassTable := λ _ flds,
  match flds !! "x", flds !! "y" with
  | Some vx, Some (VMap m) =>
      match m !! "k" with
      | Some vk => value_eqb vk vx
      | None => false
      end
  | _, _ => false
  end.

Definition int (z : Z) : value := VAtom (AInt z).

End class_tables.

(** * Properties *)

(** ** Induction on values and correctness of [value_eqb] *)

Lemma value_size_fold_lookup (m : gmap string value) k v :
  m !! k = Some v →
  value_size v ≤ map_fold (λ _ x acc, value_size x + acc) 0 m.
Proof.
  intros Hk.
  rewrite (map_fold_delete_L _ _ k v m); [lia | | done].
  intros; lia.
Qed.

Lemma value_ind' (P : value → Prop) :
  (∀ a, P (VAtom a)) →
  (∀ m, map_Forall (λ _, P) m → P (VMap m)) →
  (∀ s, P (VSet s)) →
  (∀ cls flds, map_Forall (λ _, P) flds → P (VRec cls flds)) →
  ∀ v, P v.
Proof.
  intros Hatom Hmap Hset Hrec v.
  remember (value_size v) as n eqn:Hn.
  revert v Hn.
  induction (lt_wf n) as [n _ IH]; intros [a|m|s|cls flds] ->; auto.
  - apply Hmap. intros k v Hk.
    eapply IH; [|done]. simpl.
    pose proof (value_size_fold_lookup m k v Hk). lia.
  - apply Hrec. intros k v Hk.
    eapply IH; [|done]. simpl.
    pose proof (value_size_fold_lookup flds k v Hk). lia.
Qed.

(** The fold that compares the entries of [m] with those of [n]. *)
Lemma entries_eqb_true (f : value → value → bool) (m n : gmap string value) :
  map_fold (λ k x acc,
    match n !! k with
    | Some y => f x y && acc
    | None => false
    end) true m = true
  ↔ ∀ k x, m !! k = Some x → ∃ y, n !! k = Some y ∧ f x y = true.
Proof.
  rewrite map_fold_foldr.
  transitivity (∀ k x, (k, x) ∈ map_to_list m →
                       ∃ y, n !! k = Some y ∧ f x y = true).
  2: { split; intros H k x Hk; apply H; by apply elem_of_map_to_list. }
  induction (map_to_list m) as [|[k x] l IH]; simpl.
  - split; [|done]. intros _ k x Hin. by apply elem_of_nil in Hin.
  - split.
    + intros Hf k' x' Hin.
      destruct (n !! k) as [y|] eqn:Hy; [|done].
      apply andb_true_iff in Hf as [Hxy Hl].
      apply elem_of_cons in Hin as [Heq|Hin]; [|by apply IH].
      injection Heq as -> ->. eauto.
    + intros Hall.
      destruct (Hall k x) as (y & -> & Hxy); [left|].
      rewrite Hxy. simpl. apply IH.
      intros k' x' Hin. apply Hall. by right.
Qed.

Lemma maps_eq_pointwise (m n : gmap string value) :
  dom m = dom n →
  (∀ k x, m !! k = Some x → n !! k = Some x) →
  m = n.
Proof.
  intros Hdom Hsub. apply map_eq. intros k.
  destruct (m !! k) as [x|] eqn:Hm.
  - symmetry. by apply Hsub.
  - symmetry. apply not_elem_of_dom. rewrite <-Hdom. by apply not_elem_of_dom.
Qed.

Lemma value_eqb_eq (a b : value) : value_eqb a b = true ↔ a = b.
Proof.
  revert b. induction a as [x|m IH|s|cls flds IH] using value_ind';
    intros [y|n|t|cls' flds']; simpl; try (split; [done|congruence]).
  - rewrite bool_decide_eq_true. split; congruence.
  - rewrite andb_true_iff, bool_decide_eq_true, entries_eqb_true. split.
    + intros [Hdom Hall]. f_equal. apply maps_eq_pointwise; [done|].
      intros k x Hk. destruct (Hall k x Hk) as (y & Hy & Hxy).
      apply (IH k x Hk) in Hxy. by subst.
    + intros [= <-]. split; [done|]. intros k x Hk.
      exists x. split; [done|]. by apply (IH k x Hk).
  - rewrite bool_decide_eq_true. split; congruence.
  - rewrite !andb_true_iff, !bool_decide_eq_true, entries_eqb_true. split.
    + intros [[-> Hdom] Hall]. f_equal. apply maps_eq_pointwise; [done|].
      intros k x Hk. destruct (Hall k x Hk) as (y & Hy & Hxy).
      apply (IH k x Hk) in Hxy. by subst.
    + intros [= <- <-]. split; [done|]. intros k x Hk.
      exists x. split; [done|]. by apply (IH k x Hk).
Qed.

Lemma value_eqb_refl (a : value) : value_eqb a a = true.
Proof. by apply value_eqb_eq. Qed.

Lemma value_eqb_neq (a b : value) : value_eqb a b = false ↔ a ≠ b.
Proof.
  rewrite <-value_eqb_eq. destruct (value_eqb a b); split; congruence.
Qed.

Global Instance value_eq_dec : EqDecision value.
Proof.
  intros a b. destruct (value_eqb a b) eqn:E.
  - left. by apply value_eqb_eq.
  - right. by apply value_eqb_neq.
Defined.

Global Instance change_eq_dec : EqDecision change.
Proof. solve_decision. Defined.

Global Instance addresses_dec current_path key c :
  Decision (addresses current_path key c).
Proof. unfold addresses. apply _. Defined.

Global Instance root_ok_dec (a b : value) : Decision (root_ok a b).
Proof. destruct a, b; simpl; apply _. Defined.

(** ** Results, loops and filters *)

Lemma bind_Ok {A B} (r : result A) (k : A → result B) (b : B) :
  (r ≫= k) = Ok b ↔ ∃ a, r = Ok a ∧ k a = Ok b.
Proof.
  destruct r as [a|e]; simpl; split.
  - eauto.
  - by intros (? & [= ->] & ?).
  - done.
  - by intros (? & [=] & _).
Qed.

Lemma reduce_app {A B} (f : A → B → result A) (l1 l2 : list B) (init : A) :
  reduce f (l1 ++ l2) init = reduce f l1 init ≫= reduce f l2.
Proof.
  revert init. induction l1 as [|x l1 IH]; intros init; simpl; [done|].
  destruct (f init x) as [a|e]; simpl; [apply IH|done].
Qed.

Ltac bind_step H := rewrite H; cbn [mbind result_bind].

(** A loop that appends one op per item. *)
Lemma foldl_append_each {A B} (f : B → A) (l : list B) (init : list A) :
  foldl (λ acc x, acc ++ [f x]) init l = init ++ (f <$> l).
Proof.
  revert init. induction l as [|x l IH]; intros init; simpl.
  - by rewrite app_nil_r.
  - by rewrite IH, <-app_assoc.
Qed.

Lemma fmap_as_join {A B} (f : A → B) (l : list A) :
  f <$> l = mjoin ((λ x, [f x]) <$> l).
Proof. induction l as [|x l IH]; [done|]. rewrite !fmap_cons, IH. done. Qed.

Lemma filter_all {A} (P : A → Prop) `{!∀ x, Decision (P x)} (l : list A) :
  (∀ x, x ∈ l → P x) → filter P l = l.
Proof.
  induction l as [|x l IH]; intros Hl; [done|].
  rewrite filter_cons_True by (apply Hl; by left).
  f_equal. apply IH. intros y Hy. apply Hl. by right.
Qed.

Lemma filter_none {A} (P : A → Prop) `{!∀ x, Decision (P x)} (l : list A) :
  (∀ x, x ∈ l → ¬ P x) → filter P l = [].
Proof.
  induction l as [|x l IH]; intros Hl; [done|].
  rewrite filter_cons_False by (apply Hl; by left).
  apply IH. intros y Hy. apply Hl. by right.
Qed.

(** Selecting, from ops emitted item by item, those of the items with a
    given key. *)
Lemma filter_join_by_key {X} (key : X → string) (g : X → list change)
    (P : change → Prop) `{!∀ c, Decision (P c)} (k : string) (l : list X) :
  (∀ x c, x ∈ l → c ∈ g x → (P c ↔ key x = k)) →
  filter P (mjoin (g <$> l)) = mjoin (g <$> filter (λ x, key x = k) l).
Proof.
  induction l as [|x l IH]; intros Hg; [done|].
  rewrite fmap_cons.
  change (mjoin (g x :: (g <$> l))) with (g x ++ mjoin (g <$> l)).
  rewrite filter_app, IH.
  2: { intros y c Hy. apply Hg. by right. }
  destruct (decide (key x = k)) as [Hk|Hk].
  - rewrite (filter_cons_True _ x l Hk), fmap_cons.
    change (mjoin (g x :: ?r)) with (g x ++ mjoin r).
    f_equal. apply filter_all. intros c Hc.
    apply (Hg x c); [by left|done|done].
  - rewrite (filter_cons_False _ x l Hk).
    rewrite (filter_none P (g x)); [done|].
    intros c Hc HP. apply Hk. apply (Hg x c); [by left|done|done].
Qed.

Lemma filter_key_NoDup {X} (key : X → string) (k : string) (l : list X) :
  NoDup (key <$> l) →
  filter (λ x, key x = k) l =
    match list_find (λ x, key x = k) l with
    | Some (_, x) => [x]
    | None => []
    end.
Proof.
  induction l as [|x l IH]; intros Hnd; [done|].
  apply NoDup_cons in Hnd as [Hx Hnd]. cbn [list_find].
  destruct (decide (key x = k)) as [Hk|Hk].
  - rewrite (filter_cons_True _ x l Hk). f_equal.
    apply filter_none. intros y Hy Hyk. apply Hx.
    apply list_elem_of_fmap. exists y. split; [congruence|done].
  - rewrite (filter_cons_False _ x l Hk), IH by done.
    by destruct (list_find _ l) as [[i y]|].
Qed.

Lemma filter_key_map_to_list (m : gmap string value) (k : string) :
  filter (λ kv : string * value, kv.1 = k) (map_to_list m) =
    match m !! k with
    | Some v => [(k, v)]
    | None => []
    end.
Proof.
  rewrite (filter_key_NoDup fst) by apply NoDup_fst_map_to_list.
  destruct (list_find _ _) as [[i [k' v]]|] eqn:Hfind.
  - apply list_find_Some in Hfind as (Hi & Hk & _). simpl in Hk. subst k'.
    apply list_elem_of_lookup_2, elem_of_map_to_list in Hi. by rewrite Hi.
  - destruct (m !! k) as [v|] eqn:Hm; [|done].
    apply elem_of_map_to_list in Hm.
    eapply list_find_None, Forall_forall in Hfind; [|done]. by destruct Hfind.
Qed.

Lemma filter_key_elements (S : gset string) (k : string) :
  filter (λ x, x = k) (elements S) = if decide (k ∈ S) then [k] else [].
Proof.
  pose proof (filter_key_NoDup id k (elements S)) as Hf. simpl in Hf.
  rewrite Hf by (rewrite list_fmap_id; apply NoDup_elements). clear Hf.
  destruct (list_find _ _) as [[i x]|] eqn:Hfind.
  - apply list_find_Some in Hfind as (Hi & -> & _).
    apply list_elem_of_lookup_2, elem_of_elements in Hi.
    by rewrite decide_True.
  - case_decide as Hk; [|done].
    apply elem_of_elements in Hk.
    eapply list_find_None, Forall_forall in Hfind; [|done]. by destruct Hfind.
Qed.

(** ** The Differencer *)

Lemma _create_diffs_for_eq (current_path : list string) (a b : value) :
  _create_diffs_for current_path a b =
    if value_eqb a b then []
    else if negb (bool_decide (type_of a = type_of b))
    then [_Set current_path b]
    else
      match a, b with
      | VRec _ a_dict, VRec _ b_dict =>
          _create_diffs_for_mappings _create_diffs_for current_path a_dict b_dict
      | VMap mapping_a, VMap mapping_b =>
          _create_diffs_for_mappings _create_diffs_for
            current_path mapping_a mapping_b
      | VSet set_a, VSet set_b => _create_diffs_for_sets current_path set_a set_b
      | _, _ => [_Set current_path b]
      end.
Proof. by destruct a. Qed.

Lemma _create_diffs_for_same (current_path : list string) (a : value) :
  _create_diffs_for current_path a a = [].
Proof. by rewrite _create_diffs_for_eq, value_eqb_refl. Qed.

Lemma _create_diffs_for_sets_eq (current_path : list string) (set_a set_b : gset atom) :
  _create_diffs_for_sets current_path set_a set_b =
    (_Remove current_path <$> elements (set_a ∖ set_b)) ++
    (_Add current_path <$> elements (set_b ∖ set_a)).
Proof. unfold _create_diffs_for_sets. by rewrite !foldl_append_each. Qed.

Global Instance _Remove_inj p : Inj (=) (=) (_Remove p).
Proof. by intros x y [= ->]. Qed.

Global Instance _Add_inj p : Inj (=) (=) (_Add p).
Proof. by intros x y [= ->]. Qed.

(** C5.  For sets [S1], [S2] diffed at a path, the ops are one [_Remove] per
    element of [S1 - S2] followed by one [_Add] per element of [S2 - S1]:
    the list has no duplicates, a [_Remove] is emitted exactly for the
    elements of [S1 - S2] and an [_Add] exactly for those of [S2 - S1],
    every op is one of these two (so common elements get none), and every
    [_Remove] stands before every [_Add]. *)
Theorem set_diff_exact (current_path : list string) (S1 S2 : gset atom) :
  let ops := _create_diffs_for_sets current_path S1 S2 in
  ops = (_Remove current_path <$> elements (S1 ∖ S2)) ++
        (_Add current_path <$> elements (S2 ∖ S1))
  ∧ NoDup ops
  ∧ (∀ x, _Remove current_path x ∈ ops ↔ x ∈ S1 ∧ x ∉ S2)
  ∧ (∀ x, _Add current_path x ∈ ops ↔ x ∈ S2 ∧ x ∉ S1)
  ∧ (∀ c, c ∈ ops →
        (∃ x, c = _Remove current_path x ∧ x ∈ S1 ∧ x ∉ S2) ∨
        (∃ x, c = _Add current_path x ∧ x ∈ S2 ∧ x ∉ S1))
  ∧ (∀ i j p x q y, ops !! i = Some (_Remove p x) → ops !! j = Some (_Add q y) →
        i < j).
Proof.
  intros ops. unfold ops. rewrite _create_diffs_for_sets_eq.
  split; [done|].
  split.
  { apply NoDup_app. split_and!.
    - apply (NoDup_fmap _), NoDup_elements.
    - intros c [x [-> _]]%list_elem_of_fmap [y [[=] _]]%list_elem_of_fmap.
    - apply (NoDup_fmap _), NoDup_elements. }
  split.
  { intros x. rewrite elem_of_app, !list_elem_of_fmap. split.
    - intros [(y & [= ->] & Hy)|(y & [=] & _)].
      by apply elem_of_elements, elem_of_difference in Hy.
    - intros Hx. left. exists x. split; [done|].
      by apply elem_of_elements, elem_of_difference. }
  split.
  { intros x. rewrite elem_of_app, !list_elem_of_fmap. split.
    - intros [(y & [=] & _)|(y & [= ->] & Hy)].
      by apply elem_of_elements, elem_of_difference in Hy.
    - intros Hx. right. exists x. split; [done|].
      by apply elem_of_elements, elem_of_difference. }
  split.
  { intros c. rewrite elem_of_app, !list_elem_of_fmap.
    intros [(x & -> & Hx)|(x & -> & Hx)];
      apply elem_of_elements, elem_of_difference in Hx; [left|right]; eauto. }
  intros i j p x q y Hi Hj.
  destruct (decide (i < length (_Remove current_path <$> elements (S1 ∖ S2))))
    as [Hlt|Hge].
  - destruct (decide (i < j)) as [|Hji]; [done|].
    rewrite lookup_app_l in Hj by lia.
    apply list_lookup_fmap_Some in Hj as (? & [=] & ?).
  - rewrite lookup_app_r in Hi by lia.
    apply list_lookup_fmap_Some in Hi as (? & [=] & ?).
Qed.

Lemma _create_diffs_for_mappings_eq recurse current_path
    (mapping_a mapping_b : gmap string value) :
  _create_diffs_for_mappings recurse current_path mapping_a mapping_b =
    mjoin (common_ops recurse current_path mapping_b <$> map_to_list mapping_a)
    ++ ((λ key, _Set (current_path ++ [key]) (mapping_b !!! key))
          <$> elements (dom mapping_b ∖ dom mapping_a))
    ++ ((λ key, _Remove current_path (AStr key))
          <$> elements (dom mapping_a ∖ dom mapping_b)).
Proof.
  unfold _create_diffs_for_mappings.
  rewrite !foldl_append_each, <-app_assoc. f_equal.
  rewrite map_fold_foldr.
  induction (map_to_list mapping_a) as [|[key va] l IH]; [done|].
  simpl. rewrite IH. unfold common_ops. simpl.
  destruct (mapping_b !! key) as [vb|]; [|done].
  by destruct (negb (value_eqb va vb)).
Qed.

Lemma _create_diffs_for_prefix (a b : value) (current_path : list string)
    (c : change) :
  c ∈ _create_diffs_for current_path a b → current_path `prefix_of` path c.
Proof.
  revert b current_path c.
  assert (Hmaps : ∀ (ma mb : gmap string value),
    map_Forall (λ _ va, ∀ b p c, c ∈ _create_diffs_for p va b →
                                 p `prefix_of` path c) ma →
    ∀ p c, c ∈ _create_diffs_for_mappings _create_diffs_for p ma mb →
           p `prefix_of` path c).
  { intros ma mb IH p c. rewrite _create_diffs_for_mappings_eq.
    rewrite !elem_of_app, !list_elem_of_fmap.
    intros [Hin|[(key & -> & _)|(key & -> & _)]]; simpl.
    - apply list_elem_of_join in Hin as (ops & Hc & Hops).
      apply list_elem_of_fmap in Hops as ([key va] & -> & Hkv).
      apply elem_of_map_to_list in Hkv.
      unfold common_ops in Hc. simpl in Hc.
      destruct (mb !! key) as [vb|]; [|by apply elem_of_nil in Hc].
      destruct (negb (value_eqb va vb)); [|by apply elem_of_nil in Hc].
      apply (IH key va Hkv) in Hc.
      etrans; [|done]. by apply prefix_app_r.
    - by apply prefix_app_r.
    - done. }
  induction a as [x|m IH|s|cls flds IH] using value_ind';
    intros b p c; rewrite _create_diffs_for_eq;
    destruct (value_eqb _ b); try (by intros ?%elem_of_nil);
    destruct (negb _); try (by intros ->%list_elem_of_singleton);
    destruct b as [y|n|t|cls' flds'];
    try (by intros ->%list_elem_of_singleton).
  - by apply Hmaps.
  - rewrite _create_diffs_for_sets_eq, elem_of_app, !list_elem_of_fmap.
    by intros [(? & -> & _)|(? & -> & _)].
  - by apply Hmaps.
Qed.

Lemma addresses_below (current_path : list string) (key key' : string)
    (c : change) :
  (current_path ++ [key']) `prefix_of` path c →
  addresses current_path key c ↔ key' = key.
Proof.
  intros Hpre. split.
  - intros [Hk| ->].
    + assert (current_path ++ [key] = current_path ++ [key']) as Heq.
      { destruct (prefix_weak_total _ _ _ Hk Hpre) as [Hle|Hle].
        - apply prefix_length_eq; [done|]. rewrite !length_app. simpl. lia.
        - symmetry. apply prefix_length_eq; [done|].
          rewrite !length_app. simpl. lia. }
      apply app_inv_head in Heq. congruence.
    + simpl in Hpre. by apply prefix_snoc_not in Hpre.
  - intros ->. by left.
Qed.

Lemma addresses_Remove (current_path : list string) (key key' : string) :
  addresses current_path key (_Remove current_path (AStr key')) ↔ key' = key.
Proof.
  split.
  - intros [Hk|[= ->]]; [|done]. simpl in Hk. by apply prefix_snoc_not in Hk.
  - intros ->. by right.
Qed.

(** C4.  For mappings [M1], [M2] diffed at a path, the ops that concern a
    key are: none when the key has equal values in both, the recursive diff
    at [path + key] when its values differ, the single
    [_Set (path + key) M2[key]] when it is only in [M2], and the single
    [_Remove path key] when it is only in [M1]; every op concerns some key
    of the two mappings, and this list is the diff of the two mappings. *)
Theorem mapping_diff_exact (current_path : list string)
    (M1 M2 : gmap string value) :
  let ops := _create_diffs_for_mappings _create_diffs_for current_path M1 M2 in
  (∀ key, filter (addresses current_path key) ops =
          mapping_ops_for_key current_path M1 M2 key)
  ∧ (∀ c, c ∈ ops →
       ∃ key, key ∈ dom M1 ∪ dom M2 ∧ addresses current_path key c)
  ∧ _create_diffs_for current_path (VMap M1) (VMap M2) = ops.
Proof.
  intros ops.
  assert (Hkey : ∀ key, filter (addresses current_path key) ops =
                        mapping_ops_for_key current_path M1 M2 key).
  { intros key. unfold ops, mapping_ops_for_key.
    rewrite _create_diffs_for_mappings_eq, !filter_app.
    rewrite (filter_join_by_key fst _ _ key).
    2: { intros [k va] c _ Hc. unfold common_ops in Hc. simpl in *.
         destruct (M2 !! k) as [vb|]; [|by apply elem_of_nil in Hc].
         destruct (negb _); [|by apply elem_of_nil in Hc].
         apply _create_diffs_for_prefix in Hc. by apply addresses_below. }
    rewrite (fmap_as_join (λ k, _Set _ _)), (fmap_as_join (λ k, _Remove _ _)).
    rewrite !(filter_join_by_key id _ _ key).
    2: { intros k c _ ->%list_elem_of_singleton. apply addresses_Remove. }
    2: { intros k c _ ->%list_elem_of_singleton. by apply addresses_below. }
    rewrite filter_key_map_to_list. unfold id. rewrite !filter_key_elements.
    destruct (M1 !! key) as [va|] eqn:H1, (M2 !! key) as [vb|] eqn:H2.
    - rewrite !decide_False by (rewrite elem_of_difference, !elem_of_dom,
        H1, H2; naive_solver).
      unfold common_ops. simpl. rewrite H2, !app_nil_r.
      by destruct (value_eqb va vb).
    - rewrite decide_False, decide_True by (rewrite elem_of_difference,
        !elem_of_dom, H1, H2; naive_solver).
      unfold common_ops. simpl. by rewrite H2.
    - rewrite decide_True, decide_False by (rewrite elem_of_difference,
        !elem_of_dom, H1, H2; naive_solver).
      simpl. by rewrite (lookup_total_correct _ _ _ H2).
    - rewrite !decide_False by (rewrite elem_of_difference, !elem_of_dom,
        H1, H2; naive_solver).
      done. }
  assert (Hall : ∀ c, c ∈ ops →
    ∃ key, key ∈ dom M1 ∪ dom M2 ∧ addresses current_path key c).
  { intros c. unfold ops. rewrite _create_diffs_for_mappings_eq.
    rewrite !elem_of_app, !list_elem_of_fmap.
    intros [Hin|[(key & -> & Hk)|(key & -> & Hk)]].
    - apply list_elem_of_join in Hin as (l & Hc & Hl).
      apply list_elem_of_fmap in Hl as ([key va] & -> & Hkv).
      apply elem_of_map_to_list in Hkv. exists key. split.
      { apply elem_of_union_l, elem_of_dom. eauto. }
      unfold common_ops in Hc. simpl in Hc.
      destruct (M2 !! key) as [vb|]; [|by apply elem_of_nil in Hc].
      destruct (negb _); [|by apply elem_of_nil in Hc].
      left. by apply _create_diffs_for_prefix in Hc.
    - apply elem_of_elements in Hk. exists key. split; [set_solver|by left].
    - apply elem_of_elements in Hk. exists key. split; [set_solver|by right]. }
  split_and!; [done..|].
  rewrite _create_diffs_for_eq.
  destruct (value_eqb (VMap M1) (VMap M2)) eqn:Heq; [|done].
  apply value_eqb_eq in Heq as [= <-].
  destruct ops as [|c ops'] eqn:Hops; [done|]. exfalso.
  destruct (Hall c) as (key & _ & Hc); [by left|].
  assert (c ∈ filter (addresses current_path key) (c :: ops')) as Hin.
  { apply list_elem_of_filter. split; [done|by left]. }
  rewrite Hkey in Hin. unfold mapping_ops_for_key in Hin.
  destruct (M1 !! key); [|by apply elem_of_nil in Hin].
  rewrite value_eqb_refl in Hin. by apply elem_of_nil in Hin.
Qed.

Lemma compose_diffs_changes (ds : list Diff) :
  changes (compose_diffs ds) = mjoin (changes <$> ds).
Proof.
  unfold compose_diffs. simpl.
  assert (∀ init, foldl (λ x y, x ++ changes y) init ds
                  = init ++ mjoin (changes <$> ds)) as Hfold.
  { induction ds as [|d ds IH]; intros init; simpl.
    - by rewrite app_nil_r.
    - by rewrite IH, <-app_assoc. }
  apply (Hfold []).
Qed.

(** ** The applier: the loop of [Diff.apply] *)

Section applier_facts.

Context `{ClassTable}.

Lemma change_apply_transform (c : change) (s : _TransformProxy) :
  change_apply c s = transform s (container_path c) (change_operation c).
Proof. by destruct c. Qed.

Lemma apply_step_nonempty (s : _TransformProxy) (c : change) :
  path c ≠ [] → apply_step s c = change_apply c s.
Proof.
  intros Hp. unfold apply_step. case_decide as Hlen; [done|].
  destruct (path c); [done|]. simpl in Hlen. lia.
Qed.


Lemma apply_step_empty_path (s : _TransformProxy) (c : change) :
  path c = [] → (∀ v, c ≠ _Set [] v) → apply_step s c = Raise AssertionError.
Proof.
  intros Hp Hc. unfold apply_step. rewrite Hp. simpl.
  destruct c as [p x|p v|p x]; simpl in *; subst; [done| |done].
  by destruct (Hc v).
Qed.

Lemma Diff_apply_eq (cs : list change) (o : value) :
  Diff_apply (mkDiff cs) o =
    (reduce apply_step cs (_TransformProxy_init o) ≫= commit) ≫=
      λ s, Ok (_current_object s).
Proof.
  unfold Diff_apply. simpl.
  by destruct (reduce apply_step cs (_TransformProxy_init o)).
Qed.

Lemma Diff_apply_reach (pre post : list change) (o : value) (s : _TransformProxy) :
  reduce apply_step pre (_TransformProxy_init o) = Ok s →
  Diff_apply (mkDiff (pre ++ post)) o =
    (reduce apply_step post s ≫= commit) ≫= λ s, Ok (_current_object s).
Proof. intros Hpre. by rewrite Diff_apply_eq, reduce_app, Hpre. Qed.

Lemma commit_no_operations (s : _TransformProxy) :
  _operations s = [] → commit s = Ok s.
Proof. intros Hops. unfold commit. by rewrite Hops. Qed.

(** C8.  [create_diff a a] has an empty change sequence, and applying a Diff
    with an empty change sequence returns the tree unchanged. *)
Theorem create_diff_identity (a : value) :
  create_diff a a = mkDiff []
  ∧ changes (create_diff a a) = []
  ∧ ∀ t, Diff_apply (mkDiff []) t = Ok t.
Proof.
  unfold create_diff. rewrite _create_diffs_for_same. done.
Qed.

(** C10.  [compose_diffs] of no diffs is the Diff with an empty change
    sequence, and applying it to any tree returns that tree. *)
Theorem compose_diffs_nil_identity :
  compose_diffs [] = mkDiff []
  ∧ ∀ t, Diff_apply (compose_diffs []) t = Ok t.
Proof. done. Qed.

(** *** Whole-tree replacement *)


(** C9 (as amended).  When the loop of [Diff.apply] reaches an empty-path
    [_Set] without an earlier error, the ops still pending are dropped, the
    proxy restarts from the op's value, and the result is that of applying
    the following ops to that value; an empty-path [_Remove] or [_Add]
    reached the same way fails the assertion. *)
Theorem empty_path_set_restarts (pre post : list change) (v o : value)
    (s : _TransformProxy) :
  reduce apply_step pre (_TransformProxy_init o) = Ok s →
  Diff_apply (mkDiff (pre ++ _Set [] v :: post)) o = Diff_apply (mkDiff post) v
  ∧ ∀ c, path c = [] → (∀ w, c ≠ _Set [] w) →
      Diff_apply (mkDiff (pre ++ c :: post)) o = Raise AssertionError.
Proof.
  intros Hpre. split.
  - rewrite (Diff_apply_reach _ _ _ _ Hpre). simpl.
    by rewrite Diff_apply_eq.
  - intros c Hp Hc. rewrite (Diff_apply_reach _ _ _ _ Hpre). simpl.
    by rewrite apply_step_empty_path.
Qed.


(** *** Paths that do not resolve *)

Lemma reduce_get_None (p : list string) :
  reduce (λ o segment, _get o segment (VAtom ANone)) p (VAtom ANone) ≫= evolver_of
  = Raise AttributeError.
Proof. by destruct p. Qed.







End applier_facts.

(** ** Batching *)

Section batching.

Context `{ClassTable}.

Lemma commit_pending (s : _TransformProxy) (p : list string) :
  _current_path s = Some p →
  _operations s ≠ [] →
  commit s =
    obj ← commit_batch (_current_object s) (p, _operations s);
    Ok {| _original_object := _original_object s;
          _operations := [];
          _current_path := Some p;
          _current_object := obj |}.
Proof.
  intros Hp Hops. unfold commit, commit_batch. rewrite Hp.
  destruct (_operations s) as [|op ops]; [done|]. cbn [fst snd].
  destruct (reduce _ p _) as [target|]; [|done]. cbn.
  destruct (evolver_of target) as [e|]; [|done]. cbn.
  destruct (run_operation e op) as [e1|]; [|done]. cbn.
  destruct (reduce run_operation ops e1) as [e2|]; [|done]. cbn.
  by destruct (persistent e2).
Qed.

Lemma apply_pending (cs : list change) (s : _TransformProxy) (p : list string) :
  Forall (λ c, path c ≠ []) cs →
  _current_path s = Some p →
  _operations s ≠ [] →
  (reduce apply_step cs s ≫= commit) ≫= (λ s', Ok (_current_object s')) =
    reduce commit_batch (batches_from p (_operations s) cs) (_current_object s).
Proof.
  intros Hcs. revert s p.
  induction Hcs as [|c cs Hne _ IH]; intros s p Hp Hops.
  - cbn [reduce batches_from mbind result_bind].
    rewrite (commit_pending s p Hp Hops).
    by destruct (commit_batch _ _).
  - cbn [reduce batches_from].
    rewrite apply_step_nonempty, change_apply_transform by done.
    unfold transform. rewrite Hp.
    destruct (decide (container_path c = p)) as [Hq|Hq].
    + rewrite decide_False by (by intros []).
      cbn [mbind result_bind].
      rewrite (IH _ p); [done|by rewrite Hq|].
      cbn [_operations]. by destruct (_operations s).
    + rewrite decide_True by done.
      rewrite (commit_pending s p Hp Hops). cbn [reduce].
      destruct (commit_batch _ _) as [obj|]; [|done].
      cbn [mbind result_bind].
      by rewrite (IH _ (container_path c)).
Qed.

Lemma Diff_apply_batches (cs : list change) (tree : value) :
  Forall (λ c, path c ≠ []) cs →
  Diff_apply (mkDiff cs) tree = reduce commit_batch (batches cs) tree.
Proof.
  intros Hcs. rewrite Diff_apply_eq.
  destruct Hcs as [|c cs Hne Hcs]; [done|].
  cbn [reduce batches].
  rewrite apply_step_nonempty, change_apply_transform by done.
  cbn [transform _TransformProxy_init _current_path mbind result_bind].
  by rewrite (apply_pending cs _ (container_path c)).
Qed.


Lemma batches_from_head (cs : list change) (p : list string)
    (ops : list operation) :
  ∃ ops' rest, batches_from p ops cs = (p, ops') :: rest.
Proof.
  revert ops. induction cs as [|c cs IH]; intros ops; simpl; [eauto|].
  case_decide; eauto.
Qed.











End batching.

(** ** Composition *)

Section composition.

Context `{ClassTable}.

Local Abbreviation resolve p o :=
  (reduce (λ o segment, _get o segment (VAtom ANone)) p o).

Lemma evolver_of_is_dict (t : value) (e : evolver) :
  evolver_of t = Ok e → evolver_is_dict e = is_dict t.
Proof. destruct t; simpl; try done; by intros [= <-]. Qed.

Lemma run_operation_is_dict (e e' : evolver) (op : operation) :
  run_operation e op = Ok e' → evolver_is_dict e' = evolver_is_dict e.
Proof.
  destruct op as [item|p v|item], e as [m|s|cls flds]; simpl;
    repeat case_match; try done; by intros [= <-].
Qed.

Lemma reduce_run_operation_is_dict (ops : list operation) (e e' : evolver) :
  reduce run_operation ops e = Ok e' → evolver_is_dict e' = evolver_is_dict e.
Proof.
  revert e. induction ops as [|op ops IH]; intros e; simpl.
  - by intros [= <-].
  - intros (e1 & Hop & Hrest)%bind_Ok.
    rewrite (IH _ Hrest). by eapply run_operation_is_dict.
Qed.

Lemma persistent_is_dict (e : evolver) (t : value) :
  persistent e = Ok t → is_dict t = evolver_is_dict e.
Proof.
  destruct e; simpl; try (by intros [= <-]).
  case_match; [by intros [= <-]|done].
Qed.

Lemma persistent_evolver_of (e : evolver) (t : value) :
  persistent e = Ok t → evolver_of t = Ok e.
Proof.
  destruct e; simpl; try (by intros [= <-]).
  case_match; [by intros [= <-]|done].
Qed.

(** Replacing the value at a path that resolves to a container: the new value
    is found there afterwards, and a second replacement overrides the
    first. *)
Lemma _do_to_path_again (p : list string) (o x o1 : value) (e : evolver) :
  resolve p o ≫= evolver_of = Ok e →
  _do_to_path o p x = Ok o1 →
  resolve p o1 = Ok x ∧ ∀ y, _do_to_path o1 p y = _do_to_path o p y.
Proof.
  revert o o1. induction p as [|key rest IH]; intros o o1 Hres Hdo.
  - simpl in Hdo. injection Hdo as <-. done.
  - cbn [reduce _do_to_path] in *.
    destruct o as [a|m|s|cls m]; cbn [_get] in *.
    + by destruct a.
    + destruct (m !! key) as [v|] eqn:Hm; cbn in Hres, Hdo.
      2: { by rewrite reduce_get_None in Hres. }
      destruct (_do_to_path v rest x) as [r|] eqn:Hr; cbn in Hdo; [|done].
      injection Hdo as <-.
      destruct (IH v r Hres Hr) as [Hx Hy].
      cbn [_get]. rewrite lookup_insert_eq. cbn. split; [done|].
      intros y. rewrite Hy.
      destruct (_do_to_path v rest y) as [r'|]; cbn; [|done].
      by rewrite insert_insert_eq.
    + done.
    + destruct (m !! key) as [v|] eqn:Hm; cbn in Hres, Hdo; [|done].
      destruct (_do_to_path v rest x) as [r|] eqn:Hr; cbn in Hdo; [|done].
      destruct (class_invariant cls (<[key:=r]> m)) eqn:Hinv; [|done].
      injection Hdo as <-.
      destruct (IH v r Hres Hr) as [Hx Hy].
      cbn [_get]. rewrite lookup_insert_eq. cbn. split; [done|].
      intros y. rewrite Hy.
      destruct (_do_to_path v rest y) as [r'|]; cbn; [|done].
      by rewrite insert_insert_eq.
Qed.

Lemma _do_to_path_is_dict (p : list string) (o x o1 : value) :
  p ≠ [] → _do_to_path o p x = Ok o1 → is_dict o1 = true.
Proof.
  destruct p as [|key rest]; [done|]. intros _. cbn [_do_to_path].
  intros (v & _ & (e & He & (r & _ & (e' & He' & Hp)%bind_Ok)%bind_Ok)%bind_Ok)%bind_Ok.
  apply persistent_is_dict in Hp. rewrite Hp.
  destruct e; simpl in He'; try done; by injection He' as <-.
Qed.

Lemma value_transform_again (p : list string) (o t x o1 : value) (e : evolver) :
  resolve p o = Ok t →
  evolver_of t = Ok e →
  value_transform o p x = Ok o1 →
  is_dict x = is_dict t →
  resolve p o1 = Ok x ∧ ∀ y, value_transform o1 p y = value_transform o p y.
Proof.
  intros Hres He Htr Hdict.
  assert (is_dict o = true ∧ _do_to_path o p x = Ok o1) as [Ho Hdo].
  { by destruct o. }
  assert (resolve p o ≫= evolver_of = Ok e) as Hres' by (by rewrite Hres).
  destruct (_do_to_path_again p o x o1 e Hres' Hdo) as [Hx Hy].
  split; [done|]. intros y.
  assert (is_dict o1 = true) as Ho1.
  { destruct p as [|key rest].
    - simpl in *. injection Hdo as <-. injection Hres as <-. congruence.
    - by apply (_do_to_path_is_dict (key :: rest) o x o1). }
  unfold value_transform. rewrite <-Hy. by destruct o, o1.
Qed.

(** A run committed in two pieces gives what committing it whole gives. *)
Lemma commit_batch_split (o o1 : value) (q : list string)
    (ops fs : list operation) :
  commit_batch o (q, ops) = Ok o1 →
  commit_batch o (q, ops ++ fs) = commit_batch o1 (q, fs).
Proof.
  unfold commit_batch. cbn [fst snd].
  intros (t & Ht & (e0 & He0 & (e1 & He1 & (t1 & Ht1 & Htr)%bind_Ok)%bind_Ok)%bind_Ok)%bind_Ok.
  assert (is_dict t1 = is_dict t) as Hdict.
  { rewrite (persistent_is_dict _ _ Ht1), (reduce_run_operation_is_dict _ _ _ He1).
    by apply evolver_of_is_dict. }
  destruct (value_transform_again q o t t1 o1 e0 Ht He0 Htr Hdict) as [Hres Hy].
  rewrite Ht, Hres. cbn [mbind result_bind].
  rewrite He0, (persistent_evolver_of _ _ Ht1). cbn [mbind result_bind].
  rewrite reduce_app, He1. cbn [mbind result_bind].
  destruct (reduce run_operation fs e1) as [e2|]; [|done]. cbn [mbind result_bind].
  destruct (persistent e2) as [t2|]; [|done]. cbn [mbind result_bind].
  by rewrite Hy.
Qed.

Lemma commit_operations (s sf : _TransformProxy) :
  commit s = Ok sf → _operations sf = [].
Proof.
  unfold commit. destruct (_operations s) eqn:Hops; [by intros [= <-]|].
  destruct (_current_path s); [|done].
  intros (? & _ & (? & _ & (? & _ & (? & _ & (? & _ & [= <-])%bind_Ok)%bind_Ok)%bind_Ok)%bind_Ok)%bind_Ok.
  done.
Qed.

Lemma commit_same (s s' sf' : _TransformProxy) :
  _operations s = _operations s' →
  _current_path s = _current_path s' →
  _current_object s = _current_object s' →
  commit s' = Ok sf' →
  ∃ sf, commit s = Ok sf ∧ _current_object sf = _current_object sf'.
Proof.
  intros Hops Hcp Hobj. unfold commit. rewrite Hops, Hcp, Hobj.
  destruct (_operations s'); [intros [= <-]; eauto|].
  destruct (_current_path s'); [|done].
  intros (t & Ht & (e0 & He0 & (e1 & He1 & (t1 & Ht1 & (o1 & Ho1 & [= <-])%bind_Ok)%bind_Ok)%bind_Ok)%bind_Ok)%bind_Ok.
  bind_step Ht. bind_step He0. bind_step He1. bind_step Ht1. bind_step Ho1.
  eauto.
Qed.

Lemma commit_sim (s s' sf' : _TransformProxy) :
  sim s s' →
  commit s' = Ok sf' →
  ∃ sf, commit s = Ok sf ∧ _current_object sf = _current_object sf'.
Proof.
  intros [s0 s0' Hops Hcp Hobj|s0 s0' Hops Hops' Hobj|s0 s0' q ops Hcp Hne Hops Hb Hcp'] Hc.
  - by eapply commit_same.
  - rewrite commit_no_operations in Hc by done. injection Hc as <-.
    rewrite commit_no_operations by done. eauto.
  - assert (_operations s0 ≠ []) as Hne0.
    { rewrite Hops. by destruct ops. }
    rewrite (commit_pending s0 q Hcp Hne0), Hops.
    destruct (decide (_operations s0' = [])) as [Hnil|Hnn].
    + rewrite commit_no_operations in Hc by done. injection Hc as <-.
      rewrite Hnil, app_nil_r, Hb. cbn. eauto.
    + destruct Hcp' as [Hq|[_ Hnil]]; [|done].
      rewrite (commit_batch_split _ _ _ _ _ Hb).
      rewrite (commit_pending s0' q Hq Hnn) in Hc.
      apply bind_Ok in Hc as (o2 & Ho2 & [= <-]).
      rewrite Ho2. cbn. eauto.
Qed.

Lemma transform_sim (s s' s1' : _TransformProxy) (q : list string)
    (op : operation) :
  sim s s' →
  transform s' q op = Ok s1' →
  ∃ s1, transform s q op = Ok s1 ∧ sim s1 s1'.
Proof.
  intros Hsim. unfold transform.
  intros (sf' & Hpre & [= <-])%bind_Ok.
  (* whenever the composed proxy commits, it agrees with a commit of the
     sequential one *)
  assert (∀ sc', commit s' = Ok sc' →
            _current_object sc' = _current_object sf' →
            ∃ s1, commit s ≫= (λ self, Ok
                    {| _original_object := _original_object self;
                       _operations := _operations self ++ [op];
                       _current_path := Some q;
                       _current_object := _current_object self |}) = Ok s1
                  ∧ sim s1 {| _original_object := _original_object sf';
                              _operations := [op];
                              _current_path := Some q;
                              _current_object := _current_object sf' |})
    as Hcommit.
  { intros sc' Hc Hobj.
    destruct (commit_sim s s' sc' Hsim Hc) as (sf & Hsf & Hobj').
    rewrite Hsf. cbn. eexists. split; [done|].
    apply sim_same; cbn; [|done|congruence].
    by rewrite (commit_operations _ _ Hsf). }
  destruct Hsim as [s s' Hops Hcp Hobj|s s' Hops Hops' Hobj|s s' q0 ops Hcp Hne Hops Hb Hcp'].
  - rewrite Hcp. destruct (_current_path s') as [c0|]; [case_decide|].
    + destruct (Hcommit sf' Hpre eq_refl) as (s1 & Hs1 & Hsim).
      rewrite (commit_operations _ _ Hpre). eauto.
    + injection Hpre as <-. cbn. eexists. split; [done|].
      apply sim_same; cbn; congruence.
    + injection Hpre as <-. cbn. eexists. split; [done|].
      apply sim_same; cbn; congruence.
  - assert (sf' = s') as ->.
    { destruct (_current_path s'); [case_decide|]; try congruence.
      rewrite commit_no_operations in Hpre by done. congruence. }
    assert ((match _current_path s with
             | Some current_path =>
                 if decide (q ≠ current_path) then commit s else Ok s
             | None => Ok s
             end) = Ok s) as ->.
    { destruct (_current_path s); [case_decide|]; try done.
      by apply commit_no_operations. }
    cbn. eexists. split; [done|]. apply sim_same; cbn; congruence.
  - rewrite Hcp. case_decide as Hq.
    + destruct Hcp' as [Hq'|[Hq' Hnil]]; rewrite Hq' in Hpre.
      * rewrite decide_True in Hpre by done.
        destruct (Hcommit sf' Hpre eq_refl) as (s1 & Hs1 & Hsim).
        rewrite (commit_operations _ _ Hpre). eauto.
      * injection Hpre as <-. rewrite Hnil.
        apply (Hcommit s'); [by apply commit_no_operations|done].
    + subst q0. cbn. eexists. split; [done|].
      destruct Hcp' as [Hq'|[Hq' Hnil]]; rewrite Hq' in Hpre.
      * rewrite decide_False in Hpre by (by intros []). injection Hpre as <-.
        apply (sim_split _ _ q ops); cbn; try done.
        -- by rewrite Hops, <-app_assoc.
        -- by left.
      * injection Hpre as <-.
        apply (sim_split _ _ q ops); cbn; try done.
        -- by rewrite Hops, <-app_assoc.
        -- by left.
Qed.

Lemma apply_step_sim (s s' s1' : _TransformProxy) (c : change) :
  sim s s' →
  apply_step s' c = Ok s1' →
  ∃ s1, apply_step s c = Ok s1 ∧ sim s1 s1'.
Proof.
  intros Hsim. unfold apply_step. case_decide.
  - rewrite !change_apply_transform. by apply transform_sim.
  - destruct c; try done. intros [= <-]. eexists. split; [done|].
    by apply sim_same.
Qed.

Lemma reduce_apply_step_sim (cs : list change) (s s' s1' : _TransformProxy) :
  sim s s' →
  reduce apply_step cs s' = Ok s1' →
  ∃ s1, reduce apply_step cs s = Ok s1 ∧ sim s1 s1'.
Proof.
  revert s s'. induction cs as [|c cs IH]; intros s s' Hsim; simpl.
  - intros [= <-]. eauto.
  - intros (s2' & Hstep & Hrest)%bind_Ok.
    destruct (apply_step_sim s s' s2' c Hsim Hstep) as (s2 & -> & Hsim2).
    cbn. by eapply IH.
Qed.

(** After the first diff the pending proxy simulates a fresh proxy on the
    first result. *)
Lemma sim_after_commit (s sf : _TransformProxy) :
  commit s = Ok sf →
  sim s (_TransformProxy_init (_current_object sf)).
Proof.
  intros Hc. destruct (decide (_operations s = [])) as [Hnil|Hne].
  - rewrite commit_no_operations in Hc by done. injection Hc as <-.
    by apply sim_idle.
  - destruct (_current_path s) as [q|] eqn:Hq.
    + rewrite (commit_pending s q Hq Hne) in Hc.
      apply bind_Ok in Hc as (o1 & Hb & [= <-]).
      apply (sim_split _ _ q (_operations s)); cbn; try done.
      * by rewrite app_nil_r.
      * by right.
    + unfold commit in Hc. rewrite Hq in Hc. by destruct (_operations s).
Qed.

(** C3.  [compose_diffs] concatenates the changes of its arguments in
    order, and whenever applying [d1] and then [d2] is defined, applying the
    composed diff is defined and gives the same tree. *)
Theorem compose_apply_sequential (d1 d2 : Diff) (t t1 r : value) :
  Diff_apply d1 t = Ok t1 →
  Diff_apply d2 t1 = Ok r →
  Diff_apply (compose_diffs [d1; d2]) t = Ok r
  ∧ changes (compose_diffs [d1; d2]) = changes d1 ++ changes d2
  ∧ ∀ ds, changes (compose_diffs ds) = mjoin (changes <$> ds).
Proof.
  intros H1 H2. split; [|split].
  - destruct d1 as [cs1], d2 as [cs2].
    assert (compose_diffs [mkDiff cs1; mkDiff cs2] = mkDiff (cs1 ++ cs2)) as ->.
    { done. }
    rewrite Diff_apply_eq in H1, H2.
    apply bind_Ok in H1 as (sf & (s & Hs & Hsf)%bind_Ok & [= <-]).
    apply bind_Ok in H2 as (sf' & (s' & Hs' & Hsf')%bind_Ok & [= <-]).
    pose proof (sim_after_commit s sf Hsf) as Hsim.
    destruct (reduce_apply_step_sim cs2 _ _ _ Hsim Hs') as (s2 & Hs2 & Hsim2).
    destruct (commit_sim _ _ _ Hsim2 Hsf') as (sf2 & Hsf2 & Hobj).
    rewrite Diff_apply_eq, reduce_app, Hs. cbn [mbind result_bind].
    rewrite Hs2. cbn [mbind result_bind]. rewrite Hsf2. cbn. by rewrite Hobj.
  - cbn. done.
  - apply compose_diffs_changes.
Qed.



End composition.

(** ** Round trip

    Where the code achieves it: no class has an invariant, and no op of the
    diff is a [_Remove] or [_Add] at the root. *)

Section roundtrip.

Context `{ClassTable}.
Hypothesis no_invariant : ∀ cls flds, class_invariant cls flds = true.

Local Abbreviation resolve p o :=
  (reduce (λ o segment, _get o segment (VAtom ANone)) p o).


Lemma lookup_path_app (p q : list string) (tree : value) :
  lookup_path tree (p ++ q) = lookup_path tree p ≫= λ v, lookup_path v q.
Proof.
  revert tree. induction p as [|key rest IH]; intros tree; [done|].
  destruct tree as [a|m|s|cls m]; try done; cbn [lookup_path app];
    destruct (m !! key) as [c|]; try done; cbn [mbind option_bind]; apply IH.
Qed.











(** *** Sets *)




(** *** Mappings and records *)











End roundtrip.

Section roundtrip_root.

Context `{ClassTable}.



End roundtrip_root.

(** ** More on the Differencer *)

Lemma join_nil_elem {A B} (g : A → list B) (l : list A) (x : A) :
  mjoin (g <$> l) = [] → x ∈ l → g x = [].
Proof.
  intros Hnil Hx. apply join_nil_1 in Hnil.
  eapply Forall_forall in Hnil; [exact Hnil|]. apply list_elem_of_fmap. eauto.
Qed.

Lemma _create_diffs_for_mappings_nil (current_path : list string)
    (ma mb : gmap string value) :
  map_Forall (λ _ va, ∀ p b, _create_diffs_for p va b = [] → va = b) ma →
  _create_diffs_for_mappings _create_diffs_for current_path ma mb = [] →
  ma = mb.
Proof.
  intros IH. rewrite _create_diffs_for_mappings_eq.
  intros Hnil. apply app_nil in Hnil as [Hcommon Hnil].
  apply app_nil in Hnil as [Hsets Hremoves].
  apply fmap_nil_inv in Hsets. apply elements_empty_iff in Hsets. apply leibniz_equiv in Hsets.
  apply fmap_nil_inv in Hremoves. apply elements_empty_iff in Hremoves. apply leibniz_equiv in Hremoves.
  assert (dom ma = dom mb) as Hdom.
  { apply set_eq. intros x.
    destruct (decide (x ∈ dom ma)), (decide (x ∈ dom mb)); set_solver. }
  apply maps_eq_pointwise; [done|]. intros k va Hk.
  assert (is_Some (mb !! k)) as [vb Hb].
  { apply elem_of_dom. rewrite <-Hdom. apply elem_of_dom. eauto. }
  rewrite Hb. f_equal.
  pose proof (join_nil_elem _ _ (k, va) Hcommon) as Hkv.
  unfold common_ops in Hkv. cbn [fst snd] in Hkv. rewrite Hb in Hkv.
  destruct (value_eqb va vb) eqn:Heq; cbn [negb] in Hkv.
  - symmetry. by apply value_eqb_eq.
  - symmetry. apply (IH k va Hk (current_path ++ [k])), Hkv.
    by apply elem_of_map_to_list.
Qed.

(** X2.  The diff of two trees is empty exactly when the trees are equal, at
    any path. *)
Theorem diff_empty_iff_equal (current_path : list string) (a b : value) :
  (_create_diffs_for current_path a b = [] ↔ a = b)
  ∧ (changes (create_diff a b) = [] ↔ a = b).
Proof.
  assert (∀ a p b, _create_diffs_for p a b = [] → a = b) as Hnil.
  { clear. intros a.
    induction a as [x|ma IH|sa|cls ma IH] using value_ind';
      intros p b; rewrite _create_diffs_for_eq;
      (destruct (value_eqb _ b) eqn:Heq; [by apply value_eqb_eq in Heq|]);
      (destruct (negb _) eqn:Hty; [done|]);
      apply negb_false_iff, bool_decide_eq_true in Hty;
      destruct b as [y|mb|sb|cls' mb]; try done.
    - intros Hm. f_equal. by eapply _create_diffs_for_mappings_nil.
    - rewrite _create_diffs_for_sets_eq.
      intros Hnil. apply app_nil in Hnil as [Hr Ha].
      apply fmap_nil_inv in Hr. apply elements_empty_iff in Hr. apply leibniz_equiv in Hr.
      apply fmap_nil_inv in Ha. apply elements_empty_iff in Ha. apply leibniz_equiv in Ha.
      f_equal. apply set_eq. intros x.
      destruct (decide (x ∈ sa)), (decide (x ∈ sb)); set_solver.
    - injection Hty as <-. intros Hm. f_equal.
      by eapply _create_diffs_for_mappings_nil. }
  split; (split; [apply Hnil|intros <-; apply _create_diffs_for_same]).
Qed.

(** X3.  Every op emitted for two subobjects at [current_path] acts at or
    below [current_path]: a diff never reaches outside the subtree it was
    computed for. *)
Theorem diff_ops_within_subtree (current_path : list string) (a b : value) :
  Forall (λ c, current_path `prefix_of` path c)
    (_create_diffs_for current_path a b).
Proof. apply Forall_forall. intros c. apply _create_diffs_for_prefix. Qed.

Lemma mappings_no_replacement (current_path : list string)
    (ma mb : gmap string value) :
  Forall (λ c, ∀ v, c ≠ _Set current_path v)
    (_create_diffs_for_mappings _create_diffs_for current_path ma mb).
Proof.
  rewrite _create_diffs_for_mappings_eq. apply Forall_forall. intros c.
  rewrite !elem_of_app, !list_elem_of_fmap.
  intros [Hin|[(key & -> & _)|(key & -> & _)]] v; [| |done].
  2: { intros [= Hp _]. apply (f_equal length) in Hp.
       rewrite length_app in Hp. simpl in Hp. lia. }
  apply list_elem_of_join in Hin as (l & Hc & Hl).
  apply list_elem_of_fmap in Hl as ([key va] & -> & _).
  unfold common_ops in Hc. cbn [fst snd] in Hc.
  destruct (mb !! key) as [vb|]; [|by apply elem_of_nil in Hc].
  destruct (negb _); [|by apply elem_of_nil in Hc].
  apply _create_diffs_for_prefix in Hc. intros ->. cbn in Hc.
  by apply prefix_snoc_not in Hc.
Qed.

(** X4.  The Differencer never mixes a replacement of the whole subobject
    with other ops: the ops for two subobjects at [current_path] are either
    the single [_Set current_path b] or contain no [_Set] at [current_path]
    at all.  At the root: [create_diff] emits a whole-tree replacement only
    as the sole op of the Diff. *)
Theorem diff_replacement_is_alone (current_path : list string) (a b : value) :
  (_create_diffs_for current_path a b = [_Set current_path b]
   ∨ Forall (λ c, ∀ v, c ≠ _Set current_path v)
       (_create_diffs_for current_path a b))
  ∧ (changes (create_diff a b) = [_Set [] b]
     ∨ Forall (λ c, ∀ v, c ≠ _Set [] v) (changes (create_diff a b))).
Proof.
  assert (∀ p, _create_diffs_for p a b = [_Set p b]
               ∨ Forall (λ c, ∀ v, c ≠ _Set p v) (_create_diffs_for p a b)) as H.
  { intros p. rewrite _create_diffs_for_eq.
    destruct (value_eqb a b); [right; constructor|].
    destruct (negb _); [by left|].
    destruct a as [x|ma|sa|cls ma], b as [y|mb|sb|cls' mb]; try (by left);
      right; try apply mappings_no_replacement.
    rewrite _create_diffs_for_sets_eq. apply Forall_app.
    split; apply Forall_fmap, Forall_forall; by intros x _ v. }
  split; apply H.
Qed.

(** X7.  [compose_diffs] flattens: composing the composites of two lists of
    diffs is composing the concatenated list, and composing a single diff
    gives that diff back. *)
Theorem compose_diffs_flatten (ds1 ds2 : list Diff) (d : Diff) :
  compose_diffs [compose_diffs ds1; compose_diffs ds2] = compose_diffs (ds1 ++ ds2)
  ∧ compose_diffs [d] = d
  ∧ compose_diffs (d :: ds2) = compose_diffs [d; compose_diffs ds2].
Proof.
  assert (∀ ds, compose_diffs ds = mkDiff (mjoin (changes <$> ds))) as Hc.
  { intros ds'. pose proof (compose_diffs_changes ds') as Hch.
    by destruct (compose_diffs ds'); cbn in Hch; subst. }
  rewrite !Hc. split_and!.
  - cbn. by rewrite fmap_app, join_app, app_nil_r.
  - destruct d. cbn. by rewrite app_nil_r.
  - cbn. by rewrite app_nil_r.
Qed.

(** ** More on [Diff.apply] *)

Section applier_more.

Context `{ClassTable}.

Lemma reduce_apply_step_assertion (cs : list change) (s : _TransformProxy)
    (c : change) :
  c ∈ cs → path c = [] → (∀ v, c ≠ _Set [] v) →
  ∃ e, reduce apply_step cs s = Raise e.
Proof.
  intros Hin Hp Hc. revert s.
  induction cs as [|c0 cs IH]; intros s; [by apply elem_of_nil in Hin|].
  cbn [reduce]. destruct (apply_step s c0) as [s'|e] eqn:Hstep; [|by exists e].
  cbn [mbind result_bind].
  apply elem_of_cons in Hin as [->|Hin]; [|by apply IH].
  by rewrite apply_step_empty_path in Hstep.
Qed.

Lemma create_diff_root_op (a b : value) :
  ¬ root_ok a b →
  ∃ c, c ∈ changes (create_diff a b) ∧ path c = [] ∧ ∀ v, c ≠ _Set [] v.
Proof.
  intros Hroot.
  assert (∀ ma mb : gmap string value, ¬ dom ma ⊆ dom mb →
    ∃ c, c ∈ _create_diffs_for_mappings _create_diffs_for [] ma mb
         ∧ path c = [] ∧ ∀ v, c ≠ _Set [] v) as Hmaps.
  { intros ma mb Hdom.
    destruct (elements (dom ma ∖ dom mb)) as [|k ks] eqn:Hks.
    { apply elements_empty_iff, leibniz_equiv in Hks. destruct Hdom.
      intros x Hx. destruct (decide (x ∈ dom mb)); [done|set_solver]. }
    exists (_Remove [] (AStr k)). split; [|done].
    rewrite _create_diffs_for_mappings_eq, Hks, !elem_of_app. right. right.
    rewrite fmap_cons. by left. }
  unfold create_diff. cbn [changes]. rewrite _create_diffs_for_eq.
  destruct (value_eqb a b) eqn:Heq.
  { apply value_eqb_eq in Heq as <-. destruct Hroot.
    destruct a; cbn; [done|set_solver|done|set_solver]. }
  destruct (negb _) eqn:Hty.
  { apply negb_true_iff, bool_decide_eq_false in Hty. destruct Hroot.
    destruct a, b; try done. cbn. intros ->. by destruct Hty. }
  destruct a as [x|ma|sa|cls ma], b as [y|mb|sb|cls' mb];
    try (by destruct Hroot); cbn [root_ok] in Hroot.
  - by apply Hmaps.
  - rewrite _create_diffs_for_sets_eq.
    destruct (elements (sa ∖ sb)) as [|x xs] eqn:Hxs.
    + destruct (elements (sb ∖ sa)) as [|y ys] eqn:Hys.
      * apply elements_empty_iff, leibniz_equiv in Hxs.
        apply elements_empty_iff, leibniz_equiv in Hys.
        destruct Hroot. apply set_eq. intros z.
        destruct (decide (z ∈ sa)), (decide (z ∈ sb)); set_solver.
      * exists (_Add [] y). split; [|done]. rewrite fmap_cons. by left.
    + exists (_Remove [] x). split; [|done]. rewrite fmap_cons. by left.
  - apply Hmaps. intros Hdom. by apply Hroot.
Qed.

(** X5.  The round trip fails for every pair of trees outside [root_ok]: two
    different sets, or two mappings or two records of one class of which
    the second lacks a key of the first.  Their diff holds a [_Remove] or
    [_Add] with an empty path, and [Diff.apply] fails on it, whatever tree
    it is applied to. *)
Theorem roundtrip_fails_at_root (a b tree : value) :
  ¬ root_ok a b →
  (∃ item, _Remove [] item ∈ changes (create_diff a b)
           ∨ _Add [] item ∈ changes (create_diff a b))
  ∧ ∃ e, Diff_apply (create_diff a b) tree = Raise e.
Proof.
  intros Hroot.
  destruct (create_diff_root_op a b Hroot) as (c & Hin & Hp & Hc).
  split.
  - destruct c as [p item|p v|p item]; cbn in Hp; subst p.
    + exists item. by left.
    + by destruct (Hc v).
    + exists item. by right.
  - destruct (reduce_apply_step_assertion _ (_TransformProxy_init tree) c Hin Hp Hc)
      as [e He].
    exists e. destruct (create_diff a b) as [cs]. cbn [changes] in He.
    by rewrite Diff_apply_eq, He.
Qed.

(** Applying two change sequences in a row, when defined, is what applying
    their concatenation gives. *)
Lemma Diff_apply_app (cs1 cs2 : list change) (t t1 r : value) :
  Diff_apply (mkDiff cs1) t = Ok t1 →
  Diff_apply (mkDiff cs2) t1 = Ok r →
  Diff_apply (mkDiff (cs1 ++ cs2)) t = Ok r.
Proof.
  rewrite !Diff_apply_eq.
  intros (sf & (s & Hs & Hsf)%bind_Ok & [= <-])%bind_Ok.
  intros (sf' & (s' & Hs' & Hsf')%bind_Ok & [= <-])%bind_Ok.
  pose proof (sim_after_commit s sf Hsf) as Hsim.
  destruct (reduce_apply_step_sim cs2 _ _ _ Hsim Hs') as (s2 & Hs2 & Hsim2).
  destruct (commit_sim _ _ _ Hsim2 Hsf') as (sf2 & Hsf2 & Hobj).
  rewrite reduce_app, Hs. cbn [mbind result_bind].
  rewrite Hs2. cbn [mbind result_bind]. rewrite Hsf2. cbn. by rewrite Hobj.
Qed.

(** X6.  For any list of diffs: when applying them in series is defined,
    applying [compose_diffs] of the list is defined and gives the same
    tree. *)
Theorem compose_diffs_in_series (ds : list Diff) (tree r : value) :
  apply_in_series ds tree = Ok r →
  Diff_apply (compose_diffs ds) tree = Ok r.
Proof.
  assert (∀ ds, compose_diffs ds = mkDiff (mjoin (changes <$> ds))) as Hc.
  { intros ds'. pose proof (compose_diffs_changes ds') as Hch.
    by destruct (compose_diffs ds'); cbn in Hch; subst. }
  rewrite Hc. unfold apply_in_series. revert tree.
  induction ds as [|[cs] ds IH]; intros tree; cbn [reduce].
  - by intros [= <-].
  - intros (t1 & Hd & Hrest)%bind_Ok.
    rewrite fmap_cons. change (mjoin (?x :: ?l)) with (x ++ mjoin l).
    apply (Diff_apply_app _ _ tree t1 r); [done|by apply IH].
Qed.

End applier_more.

(** ** What the ops do to the tree *)

Section op_effects.

Context `{ClassTable}.

Local Abbreviation resolve p o :=
  (reduce (λ o segment, _get o segment (VAtom ANone)) p o).

(** A path that resolves to a container goes through keys that are there. *)
Lemma resolve_lookup_path (p : list string) (o t : value) (e : evolver) :
  resolve p o = Ok t → evolver_of t = Ok e → lookup_path o p = Some t.
Proof.
  revert o. induction p as [|key rest IH]; intros o Hres He.
  - cbn in *. congruence.
  - cbn [reduce lookup_path] in *.
    destruct o as [a|m|s|cls m]; cbn [_get] in Hres.
    + by destruct a.
    + destruct (m !! key) as [v|]; cbn [mbind result_bind option_bind] in *.
      * by apply IH.
      * pose proof (reduce_get_None rest) as Hnone.
        rewrite Hres in Hnone. cbn in Hnone. congruence.
    + done.
    + destruct (m !! key) as [v|]; cbn [mbind result_bind option_bind] in *;
        [by apply IH|done].
Qed.


Lemma commit_batch_Ok (o o1 : value) (p : list string) (ops : list operation) :
  commit_batch o (p, ops) = Ok o1 →
  ∃ t e0 e1 t1,
    lookup_path o p = Some t ∧ evolver_of t = Ok e0
    ∧ reduce run_operation ops e0 = Ok e1 ∧ persistent e1 = Ok t1
    ∧ _do_to_path o p t1 = Ok o1.
Proof.
  unfold commit_batch. cbn [fst snd].
  intros (t & Ht & (e0 & He0 & (e1 & He1 & (t1 & Ht1 & Htr)%bind_Ok)%bind_Ok)%bind_Ok)%bind_Ok.
  exists t, e0, e1, t1. split_and!; try done.
  - by eapply resolve_lookup_path.
  - by destruct o.
Qed.

(** After a replacement at [p] that succeeds, the new value is what is found
    at [p], and nothing apart from [p] has changed. *)
Lemma _do_to_path_lookup (p : list string) (o t x o1 : value) (rest : list string) :
  lookup_path o p = Some t →
  _do_to_path o p x = Ok o1 →
  lookup_path o1 (p ++ rest) = lookup_path x rest.
Proof.
  revert o o1. induction p as [|key p IH]; intros o o1 Hp Hdo.
  - cbn in Hdo. by injection Hdo as <-.
  - cbn [lookup_path _do_to_path app] in *.
    destruct o as [a|m|s|cls m]; try done;
      destruct (m !! key) as [c|] eqn:Hm; try done; cbn in Hp;
      cbn [_get] in Hdo; rewrite Hm in Hdo; cbn in Hdo;
      destruct (_do_to_path c p x) as [c'|] eqn:Hc'; try done; cbn in Hdo.
    + injection Hdo as <-. rewrite lookup_insert_eq. cbn. by eapply IH.
    + destruct (class_invariant _ _); [|done]. injection Hdo as <-.
      rewrite lookup_insert_eq. cbn. by eapply IH.
Qed.

Lemma _do_to_path_frame (p : list string) (o t x o1 : value) (q : list string) :
  lookup_path o p = Some t →
  _do_to_path o p x = Ok o1 →
  apart p q →
  lookup_path o1 q = lookup_path o q.
Proof.
  revert o o1 q. induction p as [|key p IH]; intros o o1 q Hp Hdo [Hpq Hqp].
  { destruct Hpq. apply prefix_nil. }
  destruct q as [|key' q]; [destruct Hqp; apply prefix_nil|].
  cbn [lookup_path _do_to_path] in *.
  assert (key ≠ key' ∨ key = key' ∧ apart p q) as Hkeys.
  { destruct (decide (key = key')) as [->|]; [right|by left].
    split; [done|]. split; intros Hpre; [apply Hpq|apply Hqp];
      by apply prefix_cons. }
  destruct o as [a|m|s|cls m]; try done;
    destruct (m !! key) as [c|] eqn:Hm; try done; cbn in Hp;
    cbn [_get] in Hdo; rewrite Hm in Hdo; cbn in Hdo;
    destruct (_do_to_path c p x) as [c'|] eqn:Hc'; try done; cbn in Hdo.
  - injection Hdo as <-. destruct Hkeys as [Hne|[<- Hapart]].
    + by rewrite lookup_insert_ne.
    + rewrite lookup_insert_eq, Hm. cbn. by eapply IH.
  - destruct (class_invariant _ _); [|done]. injection Hdo as <-.
    destruct Hkeys as [Hne|[<- Hapart]].
    + by rewrite lookup_insert_ne.
    + rewrite lookup_insert_eq, Hm. cbn. by eapply IH.
Qed.

Lemma Diff_apply_one (c : change) (tree : value) :
  path c ≠ [] → Diff_apply (mkDiff [c]) tree = apply_op tree c.
Proof.
  intros Hne. rewrite Diff_apply_batches by (by constructor).
  cbn [batches batches_from reduce]. unfold apply_op.
  by destruct (commit_batch tree _).
Qed.

(** X8.  What an op has done when a Diff of that one op, at a non-empty
    path, has applied: after a [_Set] its value is found at its path; a
    [_Remove] found its item in the container at its path, which no longer
    holds it; after an [_Add] the container at its path holds the item. *)
Theorem single_op_postcondition (c : change) (tree r : value) :
  path c ≠ [] →
  Diff_apply (mkDiff [c]) tree = Ok r →
  match c with
  | _Set p v => lookup_path r p = Some v
  | _Remove p item =>
      ∃ d d', lookup_path tree p = Some d ∧ holds d item
              ∧ lookup_path r p = Some d' ∧ ¬ holds d' item
  | _Add p item => ∃ d', lookup_path r p = Some d' ∧ holds d' item
  end.
Proof.
  intros Hne. rewrite Diff_apply_one by done. unfold apply_op.
  intros (t & e0 & e1 & t1 & Ht & He0 & Hrun & Ht1 & Hdo)%commit_batch_Ok.
  pose proof (_do_to_path_lookup _ _ _ _ _ [] Ht Hdo) as Hat.
  rewrite app_nil_r in Hat. cbn [lookup_path] in Hat.
  cbn [reduce] in Hrun. apply bind_Ok in Hrun as (e & Hop & [= <-]).
  destruct c as [p item|p v|p item];
    cbn [path container_path change_operation run_operation] in *.
  - exists t, t1.
    destruct t as [a|m|s|cls m]; simplify_eq/=;
      repeat (case_match; simplify_eq/=); split_and!; try done;
      rewrite ?dom_delete_L; set_solver.
  - destruct (exists_last Hne) as (q & key & ->).
    rewrite removelast_last in *. rewrite last_snoc in Hop.
    pose proof (_do_to_path_lookup _ _ _ _ _ [key] Ht Hdo) as ->.
    destruct t as [a|m|s|cls m]; simplify_eq/=;
      repeat (case_match; simplify_eq/=); by rewrite lookup_insert_eq.
  - exists t1. split; [done|].
    destruct t as [a|m|s|cls m]; simplify_eq/=;
      repeat (case_match; simplify_eq/=); set_solver.
Qed.

(** *** The frame of a Diff *)

Lemma op_touched_prefix (p : list string) (op : operation) :
  p `prefix_of` op_touched p op.
Proof.
  destruct op as [[]|p' v|item]; cbn; try done; by apply prefix_app_r.
Qed.

Lemma op_touched_change (c : change) :
  path c ≠ [] → op_touched (container_path c) (change_operation c) = touched c.
Proof.
  destruct c as [p item|p v|p item]; cbn; try done. intros Hne.
  destruct (exists_last Hne) as (q & key & ->).
  by rewrite removelast_last, last_snoc.
Qed.

Lemma apart_entry (p : list string) (key0 key : string) (rest : list string) :
  apart (p ++ [key0]) (p ++ key :: rest) → key0 ≠ key.
Proof.
  intros [Hpre _] ->. apply Hpre, prefix_app, prefix_cons, prefix_nil.
Qed.

Lemma run_operation_frame (p : list string) (e e' : evolver) (op : operation)
    (key : string) (rest : list string) :
  run_operation e op = Ok e' →
  apart (op_touched p op) (p ++ key :: rest) →
  evolver_entry e' key = evolver_entry e key.
Proof.
  destruct op as [item|p' v|item]; cbn [run_operation op_touched].
  - destruct e as [m|s|cls m]; intros Hop Hapart; simplify_eq/=;
      repeat (case_match; simplify_eq/=); try done;
      apply apart_entry in Hapart; by rewrite lookup_delete_ne.
  - destruct (last p') as [key0|]; [|done]. cbn [option_list].
    intros Hop Hapart%apart_entry.
    destruct e as [m|s|cls m]; simplify_eq/=; by rewrite lookup_insert_ne.
  - destruct e as [m|s|cls m]; intros Hop _; simplify_eq/=;
      repeat (case_match; simplify_eq/=); done.
Qed.

Lemma reduce_run_operation_frame (p : list string) (ops : list operation)
    (e e' : evolver) (key : string) (rest : list string) :
  Forall (λ op, apart (op_touched p op) (p ++ key :: rest)) ops →
  reduce run_operation ops e = Ok e' →
  evolver_entry e' key = evolver_entry e key.
Proof.
  intros Hops. revert e. induction Hops as [|op ops Hop _ IH]; intros e.
  - cbn. by intros [= <-].
  - cbn [reduce]. intros (e1 & He1 & Hrest)%bind_Ok.
    rewrite (IH _ Hrest). by eapply run_operation_frame.
Qed.

Lemma commit_batch_frame (o o1 : value) (p : list string)
    (ops : list operation) (q : list string) :
  ops ≠ [] →
  Forall (λ op, apart (op_touched p op) q) ops →
  commit_batch o (p, ops) = Ok o1 →
  lookup_path o1 q = lookup_path o q.
Proof.
  intros Hne Hops (t & e0 & e1 & t1 & Ht & He0 & Hrun & Ht1 & Hdo)%commit_batch_Ok.
  assert (¬ q `prefix_of` p) as Hqp.
  { destruct ops as [|op ops]; [done|]. apply Forall_cons in Hops as [[_ Hop] _].
    intros Hpre. apply Hop. etrans; [done|apply op_touched_prefix]. }
  destruct (decide (p `prefix_of` q)) as [[rest ->]|Hpq].
  2: { by eapply _do_to_path_frame. }
  rewrite (_do_to_path_lookup _ _ _ _ _ rest Ht Hdo), lookup_path_app, Ht.
  cbn [mbind option_bind].
  destruct rest as [|key rest].
  { destruct Hqp. by rewrite app_nil_r. }
  pose proof (reduce_run_operation_frame p ops e0 e1 key rest Hops Hrun) as Hentry.
  assert (lookup_path t1 (key :: rest)
          = evolver_entry e1 key ≫= λ v, lookup_path v rest) as ->.
  { destruct e1; simplify_eq/=; repeat (case_match; simplify_eq/=); done. }
  rewrite Hentry. by destruct t; simplify_eq/=.
Qed.

Lemma batches_from_frame (cs : list change) (p : list string)
    (ops : list operation) (o r : value) (q : list string) :
  ops ≠ [] →
  Forall (λ op, apart (op_touched p op) q) ops →
  Forall (λ c, path c ≠ [] ∧ apart (touched c) q) cs →
  reduce commit_batch (batches_from p ops cs) o = Ok r →
  lookup_path r q = lookup_path o q.
Proof.
  intros Hne Hops Hcs. revert p ops o Hne Hops.
  induction Hcs as [|c cs [Hc Hapart] _ IH]; intros p ops o Hne Hops;
    cbn [batches_from reduce].
  - intros (o1 & Hb & [= <-])%bind_Ok. by eapply commit_batch_frame.
  - rewrite <-op_touched_change in Hapart by done.
    case_decide as Hq.
    + apply IH; [by destruct ops|].
      apply Forall_app. split; [done|]. constructor; [|done]. by rewrite <-Hq.
    + cbn [reduce]. intros (o1 & Hb & Hrest)%bind_Ok.
      rewrite (IH (container_path c) [change_operation c] o1);
        [by eapply commit_batch_frame|done|by constructor|done].
Qed.

(** X9.  The frame of a Diff: when a Diff whose ops have non-empty paths
    applies, whatever lies apart from the places its ops write to is found
    unchanged in the result.  In particular the other entries of a container
    an op writes to are as before. *)
Theorem diff_apply_frame (cs : list change) (tree r : value) (q : list string) :
  Forall (λ c, path c ≠ [] ∧ apart (touched c) q) cs →
  Diff_apply (mkDiff cs) tree = Ok r →
  lookup_path r q = lookup_path tree q.
Proof.
  intros Hcs. rewrite Diff_apply_batches.
  2: { eapply Forall_impl; [exact Hcs|]. by intros c [Hc _]. }
  destruct Hcs as [|c cs [Hc Hapart] Hcs]; cbn [batches reduce].
  { by intros [= <-]. }
  apply batches_from_frame; [done| |done].
  constructor; [|done]. by rewrite op_touched_change.
Qed.

(** *** Roots that are no mapping or record *)

Lemma commit_batch_not_dict (o : value) (b : list string * list operation) :
  is_dict o = false → ∃ e, commit_batch o b = Raise e.
Proof.
  intros Ho. unfold commit_batch.
  destruct (reduce _ _ _) as [t|]; cbn [mbind result_bind]; [|eauto].
  destruct (evolver_of t) as [e0|]; cbn [mbind result_bind]; [|eauto].
  destruct (reduce run_operation _ _) as [e1|]; cbn [mbind result_bind]; [|eauto].
  destruct (persistent e1) as [t1|]; cbn [mbind result_bind]; [|eauto].
  destruct o; try done; cbn; eauto.
Qed.

(** X10.  A root that is a set or a scalar can only be replaced: on such a
    tree every Diff that has ops, none of them a whole-tree replacement,
    fails. *)
Theorem root_set_or_scalar_rejected (cs : list change) (tree : value) :
  is_dict tree = false →
  cs ≠ [] →
  (∀ v, _Set [] v ∉ cs) →
  ∃ e, Diff_apply (mkDiff cs) tree = Raise e.
Proof.
  intros Hdict Hne Hset.
  destruct (decide (Forall (λ c, path c ≠ []) cs)) as [Hcs|Hcs].
  - rewrite Diff_apply_batches by done.
    destruct cs as [|c cs]; [done|]. cbn [batches].
    destruct (batches_from_head cs (container_path c) [change_operation c])
      as (ops' & rest & ->).
    cbn [reduce].
    destruct (commit_batch_not_dict tree (container_path c, ops') Hdict) as [e ->].
    by exists e.
  - apply not_Forall_Exists in Hcs; [|apply _].
    apply Exists_exists in Hcs as (c & Hin & Hc).
    assert (path c = []) as Hp.
    { cbn in Hc. by destruct (path c); [|destruct Hc]. }
    destruct (reduce_apply_step_assertion cs (_TransformProxy_init tree) c Hin Hp)
      as [e He].
    { intros v ->. by apply (Hset v). }
    exists e. by rewrite Diff_apply_eq, He.
Qed.

End op_effects.

(** ** Batching without invariants *)

Section batching_unobservable.

Context `{ClassTable}.
Hypothesis no_invariant : ∀ cls flds, class_invariant cls flds = true.

Local Abbreviation resolve p o :=
  (reduce (λ o segment, _get o segment (VAtom ANone)) p o).






End batching_unobservable.

(** * Concrete trees *)

Section examples.

Local Open Scope string_scope.

(** *** Round trip *)

(** C1, failing input.  Diffing the mapping [{"a": 1}] against the empty
    mapping gives the single op [_Remove [] "a"]; its path is empty, so
    [Diff.apply] fails the assertion instead of returning the empty
    mapping.  The same happens for two different sets at the root. *)
Theorem roundtrip_fails_on_root_removal `{ClassTable} :
  let a := VMap {[ "a" := int 1 ]} in
  let b := VMap ∅ in
  changes (create_diff a b) = [_Remove [] (AStr "a")]
  ∧ Diff_apply (create_diff a b) a = Raise AssertionError
  ∧ Diff_apply (create_diff a b) a ≠ Ok b.
Proof. split_and!; [by vm_compute..|]. by vm_compute. Qed.

Lemma roundtrip_fails_on_root_sets `{ClassTable} :
  let a := VSet {[ AInt 1; AInt 2; AInt 3 ]} in
  let b := VSet {[ AInt 2; AInt 3; AInt 4 ]} in
  changes (create_diff a b) = [_Remove [] (AInt 1); _Add [] (AInt 4)]
  ∧ Diff_apply (create_diff a b) a = Raise AssertionError.
Proof. split; by vm_compute. Qed.

(** A record whose invariant ties a field to a nested entry: the two ops
    are on different containers, so each is committed alone and the first
    commit is rejected. *)
Lemma roundtrip_fails_on_nested_invariant :
  let a := VRec "R" {[ "x" := int 1; "y" := VMap {[ "k" := int 1 ]} ]} in
  let b := VRec "R" {[ "x" := int 2; "y" := VMap {[ "k" := int 2 ]} ]} in
  x_mirrors_y "R" {[ "x" := int 1; "y" := VMap {[ "k" := int 1 ]} ]} = true
  ∧ x_mirrors_y "R" {[ "x" := int 2; "y" := VMap {[ "k" := int 2 ]} ]} = true
  ∧ changes (create_diff a b) = [_Set ["y"; "k"] (int 2); _Set ["x"] (int 2)]
  ∧ Diff_apply (H:=x_mirrors_y) (create_diff a b) a = Raise InvariantException
  ∧ Diff_apply (H:=x_mirrors_y)
      (mkDiff [_Set ["x"] (int 2); _Set ["y"; "k"] (int 2)]) a
    = Raise InvariantException.
Proof. split_and!; by vm_compute. Qed.

(** The spec's scenarios below the root. *)
Example roundtrip_mapping_scenario :
  let a := VMap {[ "a" := int 1; "b" := int 2 ]} in
  let b := VMap {[ "a" := int 1; "b" := int 3; "c" := int 4 ]} in
  changes (create_diff a b) = [_Set ["b"] (int 3); _Set ["c"] (int 4)]
  ∧ Diff_apply (H:=no_invariants) (create_diff a b) a = Ok b.
Proof. split; by vm_compute. Qed.

Example roundtrip_nested_set_scenario :
  let a := VMap {[ "s" := VSet {[ AInt 1; AInt 2; AInt 3 ]} ]} in
  let b := VMap {[ "s" := VSet {[ AInt 2; AInt 3; AInt 4 ]} ]} in
  changes (create_diff a b) = [_Remove ["s"] (AInt 1); _Add ["s"] (AInt 4)]
  ∧ Diff_apply (H:=no_invariants) (create_diff a b) a = Ok b.
Proof. split; by vm_compute. Qed.


(** *** Batches *)



(** *** Composition *)

Lemma compose_apply_sequential_witness :
  let t := VMap {[ "a" := int 1 ]} in
  let t1 := VMap {[ "a" := int 2 ]} in
  let r := VMap {[ "a" := int 2; "b" := int 3 ]} in
  Diff_apply (H:=no_invariants) (create_diff t t1) t = Ok t1
  ∧ Diff_apply (H:=no_invariants) (create_diff t1 r) t1 = Ok r
  ∧ Diff_apply (H:=no_invariants)
      (compose_diffs [create_diff t t1; create_diff t1 r]) t = Ok r.
Proof.
  intros t t1 r.
  assert (Diff_apply (H:=no_invariants) (create_diff t t1) t = Ok t1) as H1
    by (by vm_compute).
  assert (Diff_apply (H:=no_invariants) (create_diff t1 r) t1 = Ok r) as H2
    by (by vm_compute).
  split_and!; [exact H1|exact H2|].
  exact (proj1 (compose_apply_sequential (H:=no_invariants) _ _ t t1 r H1 H2)).
Defined.

(** *** Whole-tree replacement mixed with other ops *)


(** C9, counterexample: the ops before the empty-path [_Set] are on two
    containers, so the first is committed when the second arrives, and that
    commit fails. *)
Lemma empty_path_set_after_failed_commit :
  Diff_apply (H:=no_invariants)
    (mkDiff [_Set ["x"; "y"] (int 1); _Set ["z"; "w"] (int 2); _Set [] (int 3)])
    (VMap ∅)
  = Raise AttributeError.
Proof. by vm_compute. Qed.

Lemma empty_path_set_restarts_witness :
  let pre := [_Set ["x"; "y"] (int 1)] in
  let post := [_Set ["b"] (int 2)] in
  Diff_apply (H:=no_invariants) (mkDiff (pre ++ _Set [] (VMap ∅) :: post)) (VMap ∅)
    = Diff_apply (H:=no_invariants) (mkDiff post) (VMap ∅)
  ∧ Diff_apply (H:=no_invariants) (mkDiff (pre ++ _Set [] (VMap ∅) :: post)) (VMap ∅)
    = Ok (VMap {[ "b" := int 2 ]})
  ∧ Diff_apply (H:=no_invariants)
      (mkDiff (pre ++ _Remove [] (AStr "b") :: post)) (VMap ∅)
    = Raise AssertionError.
Proof.
  intros pre post.
  destruct (empty_path_set_restarts (H:=no_invariants) pre post (VMap ∅) (VMap ∅)
    {| _original_object := VMap ∅;
       _operations := [OpSet ["x"; "y"] (int 1)];
       _current_path := Some ["x"];
       _current_object := VMap ∅ |}) as [Hset Hother].
  - reflexivity.
  - split_and!.
    + exact Hset.
    + rewrite Hset. by vm_compute.
    + apply Hother; [reflexivity|done].
Defined.

(** *** Paths that do not resolve *)



(** *** Removals at the root *)

Lemma roundtrip_fails_at_root_witness :
  let a := VRec "R" {[ "x" := int 1; "y" := int 2 ]} in
  let b := VRec "R" {[ "y" := int 2 ]} in
  (∃ item, _Remove [] item ∈ changes (create_diff a b)
           ∨ _Add [] item ∈ changes (create_diff a b))
  ∧ ∃ e, Diff_apply (H:=no_invariants) (create_diff a b) a = Raise e.
Proof.
  intros a b. apply (roundtrip_fails_at_root (H:=no_invariants) a b a).
  apply (proj1 (bool_decide_eq_false _)). by vm_compute.
Defined.

(** *** Diffs in series *)

Lemma compose_diffs_in_series_witness :
  let t := VMap {[ "a" := int 1 ]} in
  let t1 := VMap {[ "a" := int 2 ]} in
  let t2 := VMap {[ "a" := int 2; "s" := VSet {[ AInt 1 ]} ]} in
  let r := VMap {[ "a" := int 2; "s" := VSet {[ AInt 1; AInt 2 ]} ]} in
  let ds := [create_diff t t1; create_diff t1 t2; create_diff t2 r] in
  apply_in_series (H:=no_invariants) ds t = Ok r
  ∧ Diff_apply (H:=no_invariants) (compose_diffs ds) t = Ok r.
Proof.
  intros t t1 t2 r ds.
  assert (apply_in_series (H:=no_invariants) ds t = Ok r) as Hs by (by vm_compute).
  split; [exact Hs|].
  exact (compose_diffs_in_series (H:=no_invariants) ds t r Hs).
Defined.

(** *** Single ops and the frame *)

Lemma single_op_postcondition_witness :
  let tree := VMap {[ "m" := VMap {[ "k" := int 1 ]} ]} in
  let r := VMap {[ "m" := VMap ∅ ]} in
  Diff_apply (H:=no_invariants) (mkDiff [_Remove ["m"] (AStr "k")]) tree = Ok r
  ∧ ∃ d d', lookup_path tree ["m"] = Some d ∧ holds d (AStr "k")
            ∧ lookup_path r ["m"] = Some d' ∧ ¬ holds d' (AStr "k").
Proof.
  intros tree r.
  assert (Diff_apply (H:=no_invariants) (mkDiff [_Remove ["m"] (AStr "k")]) tree
          = Ok r) as Happ by (by vm_compute).
  split; [exact Happ|].
  apply (single_op_postcondition (H:=no_invariants)
           (_Remove ["m"] (AStr "k")) tree r); [done|exact Happ].
Defined.

Lemma diff_apply_frame_witness :
  let tree := VRec "R" {[ "x" := int 1; "y" := VMap {[ "k" := int 1 ]} ]} in
  let r := VRec "R" {[ "x" := int 2; "y" := VMap {[ "k" := int 1 ]};
                       "z" := int 3 ]} in
  let cs := [_Set ["x"] (int 2); _Set ["z"] (int 3)] in
  Diff_apply (H:=no_invariants) (mkDiff cs) tree = Ok r
  ∧ lookup_path r ["y"; "k"] = lookup_path tree ["y"; "k"].
Proof.
  intros tree r cs.
  assert (Diff_apply (H:=no_invariants) (mkDiff cs) tree = Ok r) as Happ
    by (by vm_compute).
  split; [exact Happ|].
  apply (diff_apply_frame (H:=no_invariants) cs tree r ["y"; "k"]);
    [|exact Happ].
  repeat constructor; try done; by intros [? [=]].
Defined.

Lemma root_set_or_scalar_rejected_witness :
  ∃ e, Diff_apply (H:=no_invariants)
         (mkDiff [_Add ["s"] (AInt 1)]) (VSet {[ AInt 2 ]}) = Raise e.
Proof.
  apply (root_set_or_scalar_rejected (H:=no_invariants)); [done|done|].
  intros v [=]%list_elem_of_singleton.
Defined.

(** *** Batching without invariants *)


End examples.
